(** * Arbalest-Vec: mapping tracker and bound-check instrumentation

    A shallow embedding of two pieces of the Arbalest-Vec tree:

    - the annotation interface of the modified ThreadSanitizer runtime
      (tsan_interface_ann.cpp): [FindRace] and the mapping hook
      [AnnotateMapping], the list of benign races and the mutex
      annotations;
    - the Arbalest part of the instrumentation pass
      (ThreadSanitizer.cpp): [sanitizeFunction] and [instrumentGEP], the
      selection of the accesses to instrument, the callees of the access
      checks and the module constructors.

    Addresses are [uptr] values, modelled as [Z] with the 64-bit
    wrap-around written out.  The interval tree, the validity shadow
    ([Vsm*]) and the access checkers are not part of the sources at hand;
    they are modelled from the design document and marked as such. *)

From stdpp Require Import gmap strings list pretty.
From Stdlib Require Import ZArith Lia.

Local Open Scope Z_scope.

(* ===================================================================== *)
(** * Part I: the runtime (tsan_interface_ann.cpp)                        *)
(* ===================================================================== *)

(** ** Machine words *)

(** [uptr] arithmetic wraps modulo 2^64. *)
Definition uptr (x : Z) : Z := x mod 2 ^ 64.

(** ** ompt_device_mem_flag_t *)

Definition ompt_device_mem_flag_to : Z := 0x01.
Definition ompt_device_mem_flag_from : Z := 0x02.
Definition ompt_device_mem_flag_alloc : Z := 0x04.
Definition ompt_device_mem_flag_release : Z := 0x08.
Definition ompt_device_mem_flag_associate : Z := 0x10.
Definition ompt_device_mem_flag_disassociate : Z := 0x20.

(** The C test [optype & flag]. *)
Definition has_flag (optype flag : Z) : bool :=
  negb (Z.land optype flag =? 0).

(** ** Expected races *)

Module Race.
(** The fields of [struct ExpectRace] that [FindRace] reads; the ring
    [list->next ... != list] is the Rocq list of its elements. *)
Record ExpectRace := {
  addr : Z;
  size : Z;
  hitcount : Z;
  addcount : Z;
  line : Z
}.
End Race.

Fixpoint FindRace (list : list Race.ExpectRace) (addr size : Z)
  : option Race.ExpectRace :=
  match list with
  | [] => None
  | race :: rest =>
      let maxbegin := Z.max (Race.addr race) addr in
      let minend :=
        Z.min (uptr (Race.addr race + Race.size race)) (uptr (addr + size)) in
      if maxbegin <? minend then Some race else FindRace rest addr size
  end.

(** ** Intervals, records, nodes *)

Record Interval := { left_end : Z; right_end : Z }.

(** [MapInfo mh = {src_addr, bytes, var_name}]; the first two fields are
    read as [info.start] and [info.size]. *)
Record MapInfo := { start : Z; size : Z; name : option string }.

(** [Node mapping = {target, mh}]. *)
Record Node := { interval : Interval; info : MapInfo }.

(** Membership of an address in the half-open range. *)
Definition contains (i : Interval) (x : Z) : Prop :=
  left_end i <= x < right_end i.

(** Modelled from the spec: the overlap predicate of [Interval], whose
    definition is missing: two intervals overlap iff
    [max(a.begin, b.begin) < min(a.end, b.end)]. *)
Definition overlaps (a b : Interval) : bool :=
  Z.max (left_end a) (left_end b) <? Z.min (right_end a) (right_end b).

(** ** The mapping registry *)

Module IntervalTree.

(** Modelled from the spec: one side of the Mapping Registry (the class
    of [ctx->h_to_t] and [ctx->t_to_h], missing from the sources): an
    interval-to-record store.  The stored nodes are kept as a list; the
    order of storage plays no role below. *)
Definition t := list Node.

Definition conflict (tr : t) (i : Interval) : bool :=
  existsb (fun n => overlaps (interval n) i) tr.

(** Modelled from the spec: [insert(side, interval, record) -> bool]
    returns [false] if the side already has an interval overlapping the
    inserted one (and stores nothing: the caller repairs or asserts),
    [true] otherwise. *)
Definition insert (tr : t) (i : Interval) (m : MapInfo) : bool * t :=
  if conflict tr i then (false, tr)
  else (true, tr ++ [ {| interval := i; info := m |} ]).

(** Modelled from the spec: [remove_all_overlapping(side, interval)]
    deletes every record overlapping the interval. *)
Definition removeAllNodesWithinRange (tr : t) (i : Interval) : t :=
  List.filter (fun n => negb (overlaps (interval n) i)) tr.

(** Modelled from the spec: [find] looks up the record covering the
    queried range ([AnnotateMapping] passes an interval; a point lookup
    is the one-byte interval). *)
Definition find (tr : t) (i : Interval) : option Node :=
  List.find (fun n => overlaps (interval n) i) tr.

(** Modelled from the spec: [remove] deletes the single record that
    [find] returns. *)
Fixpoint remove (tr : t) (i : Interval) : t :=
  match tr with
  | [] => []
  | n :: rest =>
      if overlaps (interval n) i then rest else n :: remove rest i
  end.

End IntervalTree.

(** What the host side holds after the [associate] branch: the repaired
    store with the new node at its end, with or without a conflict. *)
Definition host_side_after (tr : IntervalTree.t) (i : Interval) (m : MapInfo)
  : IntervalTree.t :=
  IntervalTree.removeAllNodesWithinRange tr i
    ++ [ {| interval := i; info := m |} ].

(** ** The validity shadow *)

(** Modelled from the spec: the two state bits of a shadow cell. *)
Record Cell := { device_has_value : bool; host_has_value : bool }.

(** Modelled from the spec: the four states of a cell. *)
Inductive CellState := Uninitialized | DeviceOnly | HostOnly | Consistent.

Definition cell_state (c : Cell) : CellState :=
  match device_has_value c, host_has_value c with
  | false, false => Uninitialized
  | true, false => DeviceOnly
  | false, true => HostOnly
  | true, true => Consistent
  end.

Definition fresh_cell : Cell :=
  {| device_has_value := false; host_has_value := false |}.

(** Indices of the cells of granule [k] that cover [addr, addr + bytes). *)
Definition cells_of (k addr bytes : Z) : list Z :=
  if bytes <=? 0 then []
  else seqZ (addr / k) ((addr + bytes - 1) / k - addr / k + 1).

(** Modelled from the spec: a range update of the shadow applies [f] to
    every cell covering the range, creating the cell when it is not yet
    tracked. *)
Definition VsmRangeUpdate (f : Cell -> Cell) (k addr bytes : Z)
    (sh : gmap Z Cell) : gmap Z Cell :=
  foldr (fun c m => <[ c := f (default fresh_cell (m !! c)) ]> m)
        sh (cells_of k addr bytes).

(** Modelled from the spec: [VsmRangeDeviceReset] marks the cells "not yet
    device-valid". *)
Definition VsmRangeDeviceReset :=
  VsmRangeUpdate (fun c => {| device_has_value := false;
                              host_has_value := host_has_value c |}).

(** Modelled from the spec: [VsmRangeUpdateMapTo] marks
    [device_has_value = true] for the full covered range. *)
Definition VsmRangeUpdateMapTo :=
  VsmRangeUpdate (fun c => {| device_has_value := true;
                              host_has_value := host_has_value c |}).

(** Modelled from the spec: [VsmRangeUpdateMapFrom] marks
    [host_has_value = true]. *)
Definition VsmRangeUpdateMapFrom :=
  VsmRangeUpdate (fun c => {| device_has_value := device_has_value c;
                              host_has_value := true |}).

(** The shadow after the [to] and [from] branches. *)
Definition transfers (k optype src_addr bytes : Z) (sh : gmap Z Cell)
  : gmap Z Cell :=
  let sh1 :=
    if has_flag optype ompt_device_mem_flag_to
    then VsmRangeUpdateMapTo k src_addr bytes sh else sh in
  if has_flag optype ompt_device_mem_flag_from
  then VsmRangeUpdateMapFrom k src_addr bytes sh1 else sh1.

(** ** Violations and checkers *)

(** Modelled from the spec: the violation record, reduced to its kind,
    address and size. *)
Inductive ViolationKind := Inconsistency | OutOfBound.

Record Violation := {
  kind : ViolationKind;
  address : Z;
  access_size : Z
}.

Inductive Side := Host | Device.

Definition cell_valid (s : Side) (c : Cell) : bool :=
  match s with
  | Device => device_has_value c
  | Host => host_has_value c
  end.

(** Modelled from the spec: where the cells of an access are.  The hook
    files the cells of a mapping under its host range (the [Vsm*]
    updates get [host.left_end]), so an access on the device is looked
    up through the device-to-host record that covers its address, at the
    same offset in the host range ([info.start] plus the offset, as the
    commented-out release code computes the host address of a device
    address); an access on the host is looked up where it is.  A device
    address that no record covers has no cells. *)
Definition shadow_address (tr : IntervalTree.t) (s : Side) (addr : Z)
  : option Z :=
  match s with
  | Host => Some addr
  | Device =>
      match IntervalTree.find tr {| left_end := addr;
                                    right_end := addr + 1 |} with
      | Some n => Some (start (info n) + (addr - left_end (interval n)))
      | None => None
      end
  end.

(** Modelled from the spec: [check_access] looks up the shadow cells
    covering the access and reports one data inconsistency, at the
    address accessed, for every covered cell whose value bit for the
    accessing side is unset; cells that are not tracked are not
    reported.  The side is the one the thread is on ([is_on_target]);
    [tr] is the device-to-host side of the registry.  It only reads the
    registry and the shadow. *)
Definition check_access (k : Z) (s : Side) (tr : IntervalTree.t)
    (sh : gmap Z Cell) (addr sz : Z) : list Violation :=
  match shadow_address tr s addr with
  | None => []
  | Some a =>
      omap (fun c =>
              match sh !! c with
              | Some cell =>
                  if cell_valid s cell then None
                  else Some {| kind := Inconsistency; address := addr;
                               access_size := sz |}
              | None => None
              end)
           (cells_of k a sz)
  end.

(** A cell is marked for side [s], resp. tracked but not marked. *)
Definition marked (s : Side) (sh : gmap Z Cell) (c : Z) : Prop :=
  exists cell, sh !! c = Some cell /\ cell_valid s cell = true.

Definition unmarked (s : Side) (sh : gmap Z Cell) (c : Z) : Prop :=
  exists cell, sh !! c = Some cell /\ cell_valid s cell = false.

(** Modelled from the spec: [check_bound] takes a base pointer of a
    mapped allocation and a derived pointer, and reports unless the
    derived pointer plus the access size stays within
    [base, base + size) of the record registered for that base. *)
Definition check_bound (tr : IntervalTree.t) (base derived sz : Z)
  : list Violation :=
  match IntervalTree.find tr {| left_end := base; right_end := base + 1 |} with
  | None => []
  | Some n =>
      if (base <=? derived) && (derived + sz <=? base + size (info n))
      then []
      else [ {| kind := OutOfBound; address := derived; access_size := sz |} ]
  end.

(** ** Tracker state and outcomes *)

(** The global state the hook works on: the two registry sides of [ctx],
    the validity shadow, and the reports emitted so far. *)
Record State := {
  h_to_t : IntervalTree.t;
  t_to_h : IntervalTree.t;
  shadow : gmap Z Cell;
  reports : list Violation
}.

Definition set_h_to_t (st : State) (tr : IntervalTree.t) : State :=
  {| h_to_t := tr; t_to_h := t_to_h st;
     shadow := shadow st; reports := reports st |}.

Definition set_t_to_h (st : State) (tr : IntervalTree.t) : State :=
  {| h_to_t := h_to_t st; t_to_h := tr;
     shadow := shadow st; reports := reports st |}.

Definition set_shadow (st : State) (sh : gmap Z Cell) : State :=
  {| h_to_t := h_to_t st; t_to_h := t_to_h st;
     shadow := sh; reports := reports st |}.

Definition add_reports (st : State) (rs : list Violation) : State :=
  {| h_to_t := h_to_t st; t_to_h := t_to_h st;
     shadow := shadow st; reports := reports st ++ rs |}.

Definition initial_state : State :=
  {| h_to_t := []; t_to_h := []; shadow := ∅; reports := [] |}.

(** The stage whose lookup failed, as printed in the message. *)
Inductive Stage := StageTo | StageFrom | StageDisassociate.

(** The messages of the [ASSERT]s of [AnnotateMapping]. *)
Inductive Diagnostic :=
| NotAppMem (l r : Z)
    (* "[%p, %p] does not fall into app mem section" *)
| AlreadyInvolved (dest : Z)
    (* "[associate] Device address %p is already involved in a mapping" *)
| NotInvolved (s : Stage) (l r : Z).
    (* "[to|from|disassociate] Device address [%p, %p] does not involve in
        any mapping" *)

(** A call either returns with a new state, or dies in an [ASSERT] with
    the state reached at that point. *)
Inductive Outcome :=
| Ok (st : State)
| Fatal (d : Diagnostic) (st : State).

Definition bind (o : Outcome) (f : State -> Outcome) : Outcome :=
  match o with
  | Ok st => f st
  | Fatal d st => Fatal d st
  end.

Notation "o >>= f" := (bind o f) (at level 50, left associativity).

(** Modelled from the spec: the macro [ASSERT(cond, msg, ...)] is a fatal
    assertion: when [cond] fails the diagnostic is emitted and the call
    does not continue. *)
Definition ASSERT (cond : bool) (d : Diagnostic) (st : State) : Outcome :=
  if cond then Ok st else Fatal d st.

(** What the hook takes from its surroundings: the flag
    [flags()->enable_annotations], the platform predicate [IsAppMem], the
    shadow granule [kShadowCell], and the reporting helper
    [CheckMappingBound] (which, as a checker, only reports). *)
Record Platform := {
  enable_annotations : bool;
  IsAppMem : Z -> bool;
  kShadowCell : Z;
  CheckMappingBound : State -> Z -> Node -> list Violation
}.

(** ** AnnotateMapping, flag by flag *)

Section Hook.
Variable P : Platform.
Variables (src_addr dest_addr bytes optype codeptr : Z).
Variable var_name : option string.

Definition host : Interval :=
  {| left_end := src_addr; right_end := uptr (src_addr + bytes) |}.
Definition target : Interval :=
  {| left_end := dest_addr; right_end := uptr (dest_addr + bytes) |}.
Definition mh : MapInfo :=
  {| start := src_addr; size := bytes; name := var_name |}.
Definition mt : MapInfo :=
  {| start := dest_addr; size := bytes; name := var_name |}.

(** [ASSERT(IsAppMem(host.left_end) && IsAppMem(host.right_end - 1))] *)
Definition check_app_mem (st : State) : Outcome :=
  ASSERT (IsAppMem P (left_end host)
          && IsAppMem P (uptr (right_end host - 1)))
         (NotAppMem (left_end host) (right_end host)) st.

(** [if (optype & ompt_device_mem_flag_alloc) { }] *)
Definition on_alloc (st : State) : Outcome :=
  if has_flag optype ompt_device_mem_flag_alloc then Ok st else Ok st.

Definition on_associate (st : State) : Outcome :=
  if has_flag optype ompt_device_mem_flag_associate then
    let a := IntervalTree.insert (h_to_t st) host mt in
    let b := IntervalTree.insert (t_to_h st) target mh in
    let h2 :=
      if negb (fst a) then
        snd (IntervalTree.insert
               (IntervalTree.removeAllNodesWithinRange (snd a) host)
               host mt)
      else snd a in
    let st1 := set_t_to_h (set_h_to_t st h2) (snd b) in
    ASSERT (fst b) (AlreadyInvolved dest_addr) st1 >>= fun st2 =>
    if negb (has_flag optype ompt_device_mem_flag_to) then
      Ok (set_shadow st2
            (VsmRangeDeviceReset (kShadowCell P) (left_end host) bytes
               (shadow st2)))
    else Ok st2
  else Ok st.

(** The common shape of the [to] and [from] branches. *)
Definition on_transfer (flag : Z) (stage : Stage)
    (update : Z -> Z -> Z -> gmap Z Cell -> gmap Z Cell)
    (st : State) : Outcome :=
  if has_flag optype flag then
    let mapping := {| interval := target; info := mh |} in
    let st1 := add_reports st (CheckMappingBound P st codeptr mapping) in
    match IntervalTree.find (t_to_h st1) target with
    | None => Fatal (NotInvolved stage (left_end target) (right_end target)) st1
    | Some _ =>
        Ok (set_shadow st1
              (update (kShadowCell P) (left_end host) bytes (shadow st1)))
    end
  else Ok st.

Definition on_to : State -> Outcome :=
  on_transfer ompt_device_mem_flag_to StageTo VsmRangeUpdateMapTo.

Definition on_from : State -> Outcome :=
  on_transfer ompt_device_mem_flag_from StageFrom VsmRangeUpdateMapFrom.

Definition on_disassociate (st : State) : Outcome :=
  if has_flag optype ompt_device_mem_flag_disassociate then
    match IntervalTree.find (t_to_h st) target with
    | None =>
        Fatal (NotInvolved StageDisassociate
                 (left_end target) (right_end target)) st
    | Some _ => Ok (set_t_to_h st (IntervalTree.remove (t_to_h st) target))
    end
  else Ok st.

(** [if (optype & ompt_device_mem_flag_release) { /* commented out */ }] *)
Definition on_release (st : State) : Outcome :=
  if has_flag optype ompt_device_mem_flag_release then Ok st else Ok st.

(** The hook up to and including the [associate] branch. *)
Definition through_associate (st : State) : Outcome :=
  check_app_mem st >>= on_alloc >>= on_associate.

(** The hook up to and including the [from] branch. *)
Definition through_from (st : State) : Outcome :=
  through_associate st >>= on_to >>= on_from.

(** The branches that follow [associate]. *)
Definition after_associate (st : State) : Outcome :=
  on_to st >>= on_from >>= on_disassociate >>= on_release.

(** [SCOPED_ANNOTATION] returns at once when annotations are disabled;
    its call-stack bookkeeping ([FuncEntry]/[FuncExit]) is left out. *)
Definition AnnotateMapping (st : State) : Outcome :=
  if negb (enable_annotations P) then Ok st
  else through_from st >>= on_disassociate >>= on_release.

End Hook.

(** ** Sequences of mapping calls *)

Record MappingCall := {
  c_src : Z;
  c_dest : Z;
  c_bytes : Z;
  c_optype : Z;
  c_codeptr : Z;
  c_name : option string
}.

Definition call (P : Platform) (c : MappingCall) (st : State) : Outcome :=
  AnnotateMapping P (c_src c) (c_dest c) (c_bytes c) (c_optype c)
                  (c_codeptr c) (c_name c) st.

Fixpoint run (P : Platform) (cs : list MappingCall) (st : State) : Outcome :=
  match cs with
  | [] => Ok st
  | c :: rest => call P c st >>= run P rest
  end.

Definition call_host (c : MappingCall) : Interval :=
  host (c_src c) (c_bytes c).

Definition call_host_node (c : MappingCall) : Node :=
  {| interval := call_host c; info := mt (c_dest c) (c_bytes c) (c_name c) |}.

(** The most recent [associate] call whose host interval covers [x], in a
    history listed latest first. *)
Definition last_associate (x : Z) (history : list MappingCall)
  : option MappingCall :=
  List.find
    (fun c => has_flag (c_optype c) ompt_device_mem_flag_associate
              && (left_end (call_host c) <=? x)
              && (x <? right_end (call_host c)))
    history.

(** No two stored nodes overlap. *)
Fixpoint disjoint_nodes (tr : IntervalTree.t) : Prop :=
  match tr with
  | [] => True
  | n :: rest =>
      Forall (fun m => overlaps (interval n) (interval m) = false) rest
      /\ disjoint_nodes rest
  end.

(** Every stored node is the record of the latest association covering
    the addresses it covers, and no two stored nodes overlap. *)
Definition registry_current (history : list MappingCall)
    (tr : IntervalTree.t) : Prop :=
  disjoint_nodes tr
  /\ forall n x,
       n ∈ tr -> contains (interval n) x ->
       exists c, last_associate x history = Some c /\ n = call_host_node c.

(** A platform to run examples on: the x86-64 application ranges of the
    48-bit address space, eight-byte shadow cells, annotations on, and a
    silent mapping-bound checker. *)
Definition linux_x86_64 : Platform :=
  {| enable_annotations := true;
     IsAppMem := fun a =>
       ((0x000000001000 <=? a) && (a <? 0x008000000000))
       || ((0x550000000000 <=? a) && (a <? 0x568000000000))
       || ((0x7b0000000000 <=? a) && (a <? 0x7c0000000000))
       || ((0x7e8000000000 <=? a) && (a <? 0x800000000000));
     kShadowCell := 8;
     CheckMappingBound := fun _ _ _ => [] |}.

(** ** Scenarios *)

Definition scenario_host : Z := 0x1000.
Definition scenario_device : Z := 0x7b8000002000.

(** [alloc|associate|to] of four bytes, then [release|disassociate]. *)
Definition enter_data : MappingCall :=
  {| c_src := scenario_host; c_dest := scenario_device; c_bytes := 4;
     c_optype := 0x15; c_codeptr := 0; c_name := Some "a" |}.

Definition exit_data : MappingCall :=
  {| c_src := scenario_host; c_dest := scenario_device; c_bytes := 4;
     c_optype := 0x28; c_codeptr := 0; c_name := Some "a" |}.

(** [alloc|associate] alone, and a later [to]. *)
Definition associate_only : MappingCall :=
  {| c_src := scenario_host; c_dest := scenario_device; c_bytes := 4;
     c_optype := 0x14; c_codeptr := 0; c_name := Some "a" |}.

Definition copy_to : MappingCall :=
  {| c_src := scenario_host; c_dest := scenario_device; c_bytes := 4;
     c_optype := 0x01; c_codeptr := 0; c_name := Some "a" |}.

(** A second association whose host interval overlaps the first one. *)
Definition associate_again : MappingCall :=
  {| c_src := scenario_host + 2; c_dest := scenario_device + 0x1000;
     c_bytes := 8; c_optype := 0x15; c_codeptr := 0; c_name := Some "b" |}.

(** The state a call ends in, whether it returns or dies. *)
Definition state_of (o : Outcome) : State :=
  match o with
  | Ok st => st
  | Fatal _ st => st
  end.

(** ** Benign races: the rest of the annotation list *)

Definition kMaxDescLen : Z := 128.

(** An entry of the ring: the fields of [struct ExpectRace] that
    [FindRace] and the counters use are in [Race.ExpectRace]; [file] and
    [desc] ride along. *)
Record BenignRace := {
  race : Race.ExpectRace;
  file : string;
  desc : string
}.

(** The copy loop [for (; i < kMaxDescLen - 1 && desc[i]; i++)]: at most
    [n] characters, up to the terminator. *)
Fixpoint copy_desc (n : nat) (d : string) : string :=
  match n, d with
  | O, _ => EmptyString
  | S _, EmptyString => EmptyString
  | S n', String c rest =>
      if Ascii.eqb c Ascii.zero then EmptyString
      else String c (copy_desc n' rest)
  end.

Definition same_range (addr sz : Z) (b : BenignRace) : bool :=
  (Race.addr (race b) =? addr) && (Race.size (race b) =? sz).

Definition bump_addcount (b : BenignRace) : BenignRace :=
  {| race := {| Race.addr := Race.addr (race b);
                Race.size := Race.size (race b);
                Race.hitcount := Race.hitcount (race b);
                Race.addcount := uptr (Race.addcount (race b) + 1);
                Race.line := Race.line (race b) |};
     file := file b; desc := desc b |}.

Definition bump_hitcount (b : BenignRace) : BenignRace :=
  {| race := {| Race.addr := Race.addr (race b);
                Race.size := Race.size (race b);
                Race.hitcount := uptr (Race.hitcount (race b) + 1);
                Race.addcount := Race.addcount (race b);
                Race.line := Race.line (race b) |};
     file := file b; desc := desc b |}.

(** The first loop of [AddExpectRace]: an entry with the same address and
    size gets its [addcount] incremented. *)
Fixpoint add_existing (ring : list BenignRace) (addr sz : Z)
  : option (list BenignRace) :=
  match ring with
  | [] => None
  | b :: rest =>
      if same_range addr sz b then Some (bump_addcount b :: rest)
      else cons b <$> add_existing rest addr sz
  end.

Definition new_race (f : string) (l addr sz : Z) (d : option string)
  : BenignRace :=
  {| race := {| Race.addr := addr; Race.size := sz; Race.hitcount := 0;
                Race.addcount := 1; Race.line := l |};
     file := f;
     desc := match d with
             | Some d => copy_desc (Z.to_nat (kMaxDescLen - 1)) d
             | None => EmptyString
             end |}.

(** [AddExpectRace]: bump an existing entry, or link a new one in right
    behind the list head. *)
Definition AddExpectRace (ring : list BenignRace) (f : string)
    (l addr sz : Z) (d : option string) : list BenignRace :=
  match add_existing ring addr sz with
  | Some list' => list'
  | None => new_race f l addr sz d :: ring
  end.

(** The test of [FindRace], on an entry. *)
Definition race_hit (addr sz : Z) (b : BenignRace) : bool :=
  Z.max (Race.addr (race b)) addr
  <? Z.min (uptr (Race.addr (race b) + Race.size (race b))) (uptr (addr + sz)).

(** [CheckContains]: look the range up with [FindRace] and count the hit
    on the entry found. *)
Definition CheckContains (ring : list BenignRace) (addr sz : Z)
  : bool * list BenignRace :=
  match FindRace (race <$> ring) addr sz with
  | None => (false, ring)
  | Some _ =>
      match list_find (fun b => race_hit addr sz b = true) ring with
      | Some (i, _) => (true, alter bump_hitcount i ring)
      | None => (true, ring)
      end
  end.

(** [InitList] on the context's ring. *)
Definition InitializeDynamicAnnotations : list BenignRace := [].

Definition IsExpectedReport (benign : list BenignRace) (addr sz : Z)
  : bool * list BenignRace :=
  CheckContains benign addr sz.

Definition BenignRaceImpl (benign : list BenignRace) (f : string)
    (l mem sz : Z) (d : option string) : list BenignRace :=
  AddExpectRace benign f l mem sz d.

Definition AnnotateBenignRaceSized (P : Platform)
    (benign : list BenignRace) (f : string) (l mem sz : Z)
    (d : option string) : list BenignRace :=
  if negb (enable_annotations P) then benign
  else BenignRaceImpl benign f l mem sz d.

Definition AnnotateBenignRace (P : Platform) (benign : list BenignRace)
    (f : string) (l mem : Z) (d : option string) : list BenignRace :=
  if negb (enable_annotations P) then benign
  else BenignRaceImpl benign f l mem 1 d.

(** A call of [AnnotateBenignRaceSized], and a run of such calls from the
    freshly initialised ring. *)
Record BenignCall := {
  b_file : string;
  b_line : Z;
  b_mem : Z;
  b_size : Z;
  b_desc : option string
}.

Definition annotate_all (P : Platform) (calls : list BenignCall)
  : list BenignRace :=
  foldl (fun benign c =>
           AnnotateBenignRaceSized P benign (b_file c) (b_line c) (b_mem c)
                                   (b_size c) (b_desc c))
        InitializeDynamicAnnotations calls.

Definition range_key (b : BenignRace) : Z * Z :=
  (Race.addr (race b), Race.size (race b)).

Definition total_addcount (ring : list BenignRace) : Z :=
  foldr (fun b acc => Race.addcount (race b) + acc) 0 ring.

(** ** Mutex annotations *)

(** The runtime entry points the mutex annotations call, as a trace. *)
Inductive RtlCall :=
| MutexPreLock (m : Z)
| MutexPreReadLock (m : Z)
| MutexPostLock (m flagz rec : Z)
| MutexPostReadLock (m flagz : Z)
| MutexUnlock (m flagz : Z)
| MutexReadUnlock (m : Z)
| ThreadIgnoreBegin (pc : Z)
| ThreadIgnoreEnd
| ThreadIgnoreSyncBegin (pc : Z)
| ThreadIgnoreSyncEnd.

(** The flag bits of the mutex interface, declared in the runtime's
    headers. *)
Record MutexFlags := {
  MutexFlagReadLock : Z;
  MutexFlagTryLock : Z;
  MutexFlagTryLockFailed : Z;
  MutexFlagRecursiveUnlock : Z
}.

Section Mutex.
Variable P : Platform.
Variable MF : MutexFlags.

Definition tsan_mutex_pre_lock (m flagz : Z) : list RtlCall :=
  if negb (enable_annotations P) then []
  else
    (if negb (has_flag flagz (MutexFlagTryLock MF)) then
       if has_flag flagz (MutexFlagReadLock MF)
       then [MutexPreReadLock m] else [MutexPreLock m]
     else [])
    ++ [ThreadIgnoreBegin 0; ThreadIgnoreSyncBegin 0].

Definition tsan_mutex_post_lock (m flagz rec : Z) : list RtlCall :=
  if negb (enable_annotations P) then []
  else
    [ThreadIgnoreSyncEnd; ThreadIgnoreEnd]
    ++ (if negb (has_flag flagz (MutexFlagTryLockFailed MF)) then
          if has_flag flagz (MutexFlagReadLock MF)
          then [MutexPostReadLock m flagz] else [MutexPostLock m flagz rec]
        else []).

(** [None] when the [CHECK] on a recursive read unlock fails. *)
Definition tsan_mutex_pre_unlock (m flagz : Z) : option (list RtlCall) :=
  if negb (enable_annotations P) then Some []
  else if has_flag flagz (MutexFlagReadLock MF) then
    if has_flag flagz (MutexFlagRecursiveUnlock MF) then None
    else Some [MutexReadUnlock m; ThreadIgnoreBegin 0; ThreadIgnoreSyncBegin 0]
  else Some [MutexUnlock m flagz; ThreadIgnoreBegin 0; ThreadIgnoreSyncBegin 0].

Definition tsan_mutex_post_unlock (m flagz : Z) : list RtlCall :=
  if negb (enable_annotations P) then []
  else [ThreadIgnoreSyncEnd; ThreadIgnoreEnd].

Definition tsan_mutex_pre_signal (addr flagz : Z) : list RtlCall :=
  if negb (enable_annotations P) then []
  else [ThreadIgnoreBegin 0; ThreadIgnoreSyncBegin 0].

Definition tsan_mutex_post_signal (addr flagz : Z) : list RtlCall :=
  if negb (enable_annotations P) then []
  else [ThreadIgnoreSyncEnd; ThreadIgnoreEnd].

Definition tsan_mutex_pre_divert (addr flagz : Z) : list RtlCall :=
  if negb (enable_annotations P) then []
  else [ThreadIgnoreSyncEnd; ThreadIgnoreEnd].

Definition tsan_mutex_post_divert (addr flagz : Z) : list RtlCall :=
  if negb (enable_annotations P) then []
  else [ThreadIgnoreBegin 0; ThreadIgnoreSyncBegin 0].

End Mutex.

(** The open ignore regions, innermost first. *)
Inductive Region := IgnoreAccesses | IgnoreSync.

(** Follow the ignore calls of a trace on the stack of open regions;
    [None] when an end does not close the innermost open region. *)
Fixpoint ignore_regions (trace : list RtlCall) (open : list Region)
  : option (list Region) :=
  match trace with
  | [] => Some open
  | ThreadIgnoreBegin _ :: rest => ignore_regions rest (IgnoreAccesses :: open)
  | ThreadIgnoreSyncBegin _ :: rest => ignore_regions rest (IgnoreSync :: open)
  | ThreadIgnoreEnd :: rest =>
      match open with
      | IgnoreAccesses :: open' => ignore_regions rest open'
      | _ => None
      end
  | ThreadIgnoreSyncEnd :: rest =>
      match open with
      | IgnoreSync :: open' => ignore_regions rest open'
      | _ => None
      end
  | _ :: rest => ignore_regions rest open
  end.

(* ===================================================================== *)
(** * Part II: the instrumentation pass (ThreadSanitizer.cpp)             *)
(* ===================================================================== *)

Module IR.

(** What an operand can be.  An instruction is referred to by its result,
    which is unique in a function. *)
Inductive Value :=
| Result (id : nat)
| Argument (n : nat)
| Global (g : string)
| Constant (z : Z).

(** The instruction classes the pass tells apart.  [TypeSize] is the
    store size in bits of the accessed type, as
    [DL.getTypeStoreSizeInBits] gives it. *)
Inductive Opcode :=
| Load (TypeSize : Z) (ptr : Value)
| Store (TypeSize : Z) (val ptr : Value)
| GetElementPtr (ops : list Value)
| Call (callee : string) (args : list Value)
| Other (ops : list Value).

Record Instruction := { result : option nat; opcode : Opcode }.

Definition BasicBlock := list Instruction.

Record Function := {
  Name : string;
  Naked : bool;
  DisableSanitizerInstrumentation : bool;
  body : list BasicBlock
}.

#[global] Instance Value_eq_dec : EqDecision Value.
Proof. solve_decision. Defined.

#[global] Instance Opcode_eq_dec : EqDecision Opcode.
Proof. solve_decision. Defined.

#[global] Instance Instruction_eq_dec : EqDecision Instruction.
Proof. solve_decision. Defined.

Definition operands (o : Opcode) : list Value :=
  match o with
  | Load _ p => [p]
  | Store _ v p => [v; p]
  | GetElementPtr ops => ops
  | Call _ args => args
  | Other ops => ops
  end.

(** The use list of a value: one entry per operand slot that holds it. *)
Definition uses (b : list BasicBlock) (v : Value) : list Instruction :=
  flat_map
    (fun I => flat_map (fun o => if decide (o = v) then [I] else [])
                       (operands (opcode I)))
    (concat b).

(** [InstrumentationIRBuilder IRB(At); IRB.CreateCall(...)]: the new
    instruction goes right before [At]. *)
Definition insertBefore (b : list BasicBlock) (At New : Instruction)
  : list BasicBlock :=
  List.map
    (flat_map (fun I => if decide (I = At) then [New; I] else [I])) b.

End IR.

Import IR.

Definition kTsanModuleCtorName : string := "tsan.module_ctor".
Definition CheckBoundName : string := "__arbalest_check_bound".

(** [uint32_t TypeSize = DL.getTypeStoreSizeInBits(OrigTy)]: the store
    size in bits is a 64-bit quantity, and the initialisation keeps its
    low 32 bits. *)
Definition uint32_t (x : Z) : Z := x mod 2 ^ 32.

Definition getMemoryAccessSize (StoreSizeInBits : Z) : Z :=
  let TypeSize := uint32_t StoreSizeInBits in
  if negb (TypeSize =? 8) && negb (TypeSize =? 16) && negb (TypeSize =? 32)
     && negb (TypeSize =? 64) && negb (TypeSize =? 128)
  then -1
  else TypeSize / 8.

(** [IRB.CreateCall(ArbalestCheckBound, {BasePtr, GEP, Size})]; with
    opaque pointers the casts to [i8*] add no instruction. *)
Definition check_bound_call (BasePtr GEP : Value) (Size : Z) : Instruction :=
  {| result := None;
     opcode := Call CheckBoundName [BasePtr; GEP; Constant Size] |}.

(** [Arbalest::instrumentGEP]: walk the uses of the GEP and put a bound
    check in front of every user that is a load. *)
Definition instrumentGEP (GEP : Instruction) (b : list BasicBlock)
  : list BasicBlock :=
  match result GEP, opcode GEP with
  | Some g, GetElementPtr (BasePtr :: _) =>
      foldl
        (fun b' U =>
           match opcode U with
           | Load TypeSize _ =>
               insertBefore b' U
                 (check_bound_call BasePtr (Result g)
                    (getMemoryAccessSize TypeSize))
           | _ => b'
           end)
        b (uses b (Result g))
  | _, _ => b
  end.

Definition isGetElementPtrInst (I : Instruction) : bool :=
  match opcode I with
  | GetElementPtr _ => true
  | _ => false
  end.

(** The loop over all instructions of the function; the calls it inserts
    on the way are no GEPs, so it is a walk over the instructions
    present when it starts. *)
Definition instrumentGEPs (b : list BasicBlock) : list BasicBlock :=
  foldl (fun b' I => if isGetElementPtrInst I then instrumentGEP I b' else b')
        b (concat b).

Section Pass.
(** The command-line switch and the prefix read from the module flag. *)
Variable ClEnableArbalest : bool.
Variable OutlinedFuncPrefix : string.
(** The race-detector and Arbalest access instrumentation that
    [sanitizeFunction] performs before it turns to the GEPs.  The entry
    and exit calls it adds afterwards are left out. *)
Variable instrumentAccesses : list BasicBlock -> list BasicBlock.

Definition set_body (F : Function) (b : list BasicBlock) : Function :=
  {| Name := Name F; Naked := Naked F;
     DisableSanitizerInstrumentation := DisableSanitizerInstrumentation F;
     body := b |}.

Definition sanitizeFunction (F : Function) : Function :=
  if String.eqb (Name F) kTsanModuleCtorName then F
  else if Naked F then F
  else if DisableSanitizerInstrumentation F then F
  else
    let b := instrumentAccesses (body F) in
    if ClEnableArbalest then
      if String.prefix OutlinedFuncPrefix (Name F)
      then set_body F (instrumentGEPs b)
      else set_body F b
    else set_body F b.
End Pass.



(** A store through a derived pointer gets no bound check, a load does. *)
Definition outlined_example : Function :=
  {| Name := ".omp_outlined._debug__"; Naked := false;
     DisableSanitizerInstrumentation := false;
     body :=
       [ [ {| result := Some 1%nat;
              opcode := GetElementPtr [Argument 0; Constant 3] |};
           {| result := None;
              opcode := Store 32 (Constant 7) (Result 1) |};
           {| result := Some 2%nat;
              opcode := GetElementPtr [Argument 0; Constant 4] |};
           {| result := Some 3%nat; opcode := Load 32 (Result 2) |} ] ] |}.


(** ** The rest of the pass: sizes, callees, selection *)

Definition kNumberOfAccessSizes : nat := 5.

Fixpoint countTrailingZeros_pos (p : positive) : Z :=
  match p with
  | xO q => 1 + countTrailingZeros_pos q
  | _ => 0
  end.

(** [countTrailingZeros] on a 32-bit value. *)
Definition countTrailingZeros (x : Z) : Z :=
  match x with
  | Zpos p => countTrailingZeros_pos p
  | _ => 32
  end.

Definition getMemoryAccessFuncIndex (StoreSizeInBits : Z) : Z :=
  let TypeSize := uint32_t StoreSizeInBits in
  if negb (TypeSize =? 8) && negb (TypeSize =? 16) && negb (TypeSize =? 32)
     && negb (TypeSize =? 64) && negb (TypeSize =? 128)
  then -1
  else countTrailingZeros (TypeSize / 8).

(** [utostr]. *)
Definition utostr (n : Z) : string := pretty (Z.to_N n).

(** The callee tables that [Arbalest::initialize] fills, entry [i] for
    accesses of [1 << i] bytes. *)
Definition callee_table (stem : string) : list string :=
  (fun i => stem +:+ utostr (Z.shiftl 1 (Z.of_nat i)))
    <$> seq 0 kNumberOfAccessSizes.

Definition ArbalestRead : list string := callee_table "__arbalest_read".
Definition ArbalestWrite : list string := callee_table "__arbalest_write".
Definition ArbalestUnalignedRead : list string :=
  callee_table "__arbalest_unaligned_read".
Definition ArbalestUnalignedWrite : list string :=
  callee_table "__arbalest_unaligned_write".

(** A plain load or store, with what the pass asks of it. *)
Record MemInst := {
  ident : nat;
  IsWrite : bool;
  Addr : Value;
  AccessBits : Z;
  Alignment : Z;
  isVolatile : bool;
  isVtableAccess : bool;
  isSwiftError : bool
}.

#[global] Instance MemInst_eq_dec : EqDecision MemInst.
Proof. solve_decision. Defined.

(** [Arbalest::instrumentLoadOrStore]: the value returned, and the callee
    of the call put in front of the access, if any. *)
Definition Arbalest_instrumentLoadOrStore (I : MemInst)
  : bool * option string :=
  if isSwiftError I then (false, None)
  else
    let Idx := getMemoryAccessFuncIndex (AccessBits I) in
    if Idx <? 0 then (false, None)
    else if isVtableAccess I then (true, None)
    else
      let TypeSize := uint32_t (AccessBits I) in
      let table :=
        if (8 <=? Alignment I) || (Alignment I mod (TypeSize / 8) =? 0)
        then (if IsWrite I then ArbalestWrite else ArbalestRead)
        else (if IsWrite I then ArbalestUnalignedWrite
              else ArbalestUnalignedRead) in
      (true, table !! Z.to_nat Idx).

(** [InstructionInfo] and its flag. *)
Record InstructionInfo := { Inst : MemInst; Flags : Z }.

Definition kCompoundRW : Z := 1.

Definition is_compound (II : InstructionInfo) : bool :=
  negb (Z.land (Flags II) kCompoundRW =? 0).

Definition mark_compound (II : InstructionInfo) : InstructionInfo :=
  {| Inst := Inst II; Flags := Z.lor (Flags II) kCompoundRW |}.

(** [DenseMap<Value *, size_t> WriteTargets]: the latest binding of an
    address comes first. *)
Definition find_target (WriteTargets : list (Value * nat)) (a : Value)
  : option nat :=
  snd <$> List.find (fun p => bool_decide (p.1 = a)) WriteTargets.

Section Selection.
(** The address analyses the selection asks ([stripInBoundsOffsets],
    capture tracking and the like live in LLVM), and the options.  The
    flag [InvokedByTsan] of [addrPointsToConstantData] only selects
    whether the statistics are counted; the answer is the same. *)
Variable shouldInstrumentReadWriteFromAddress : Value -> bool.
Variable addrPointsToConstantData : Value -> bool.
Variable isUncapturedAlloca : Value -> bool.
Variable ClInstrumentReadBeforeWrite : bool.
Variable ClDistinguishVolatile : bool.
Variable ClCompoundReadBeforeWrite : bool.
Variable ClArbalest : bool.

(** One turn of the loop of
    [ThreadSanitizer::chooseInstructionsToInstrument]. *)
Definition choose_step (st : list (Value * nat) * list InstructionInfo)
    (I : MemInst) : list (Value * nat) * list InstructionInfo :=
  let WriteTargets := st.1 in
  let All := st.2 in
  if negb (shouldInstrumentReadWriteFromAddress (Addr I)) then st
  else
    let keep :=
      if isUncapturedAlloca (Addr I) then st
      else
        (if IsWrite I
         then (Addr I, length All) :: WriteTargets
         else WriteTargets,
         All ++ [ {| Inst := I; Flags := 0 |} ]) in
    if IsWrite I then keep
    else
      let after_write_check :=
        if addrPointsToConstantData (Addr I) then st else keep in
      match find_target WriteTargets (Addr I) with
      | Some idx =>
          if negb ClInstrumentReadBeforeWrite then
            let AnyVolatile :=
              ClDistinguishVolatile
              && (isVolatile I
                  || default false ((isVolatile ∘ Inst) <$> All !! idx)) in
            if negb AnyVolatile
            then (WriteTargets, alter mark_compound idx All)
            else after_write_check
          else after_write_check
      | None => after_write_check
      end.

(** [ThreadSanitizer::chooseInstructionsToInstrument]: the new [All]
    ([Local] is cleared by it). *)
Definition chooseInstructionsToInstrument (Local : list MemInst)
    (All : list InstructionInfo) : list InstructionInfo :=
  (foldl choose_step ([], All) (rev Local)).2.

(** [Arbalest::chooseInstructionsToInstrument]; it leaves [Local] alone. *)
Definition Arbalest_chooseInstructionsToInstrument (Local : list MemInst)
    (All : list MemInst) : list MemInst :=
  foldl
    (fun All I =>
       if negb (shouldInstrumentReadWriteFromAddress (Addr I)) then All
       else if negb (IsWrite I) && addrPointsToConstantData (Addr I) then All
       else All ++ [I])
    All (rev Local).

(** The two tests at the head of the non-vtable part of
    [ThreadSanitizer::instrumentLoadOrStore], and its assertion. *)
Definition IsCompoundRW (II : InstructionInfo) : bool :=
  ClCompoundReadBeforeWrite && is_compound II.

Definition IsVolatile (II : InstructionInfo) : bool :=
  ClDistinguishVolatile && isVolatile (Inst II).

Definition compound_volatile_assertion (II : InstructionInfo) : bool :=
  negb (IsVolatile II) || negb (IsCompoundRW II).

(** The instructions as the traversal of [sanitizeFunction] sorts them. *)
Inductive Sorted :=
| SAtomic (id : nat)
| SMem (m : MemInst)
| SCall (id : nat) (isMemIntrinsic : bool)
| SOther (id : nat).

Record Collected := {
  AllLoadsAndStores : list InstructionInfo;
  LocalLoadsAndStores : list MemInst;
  AtomicAccesses : list nat;
  MemIntrinCalls : list nat;
  HasCalls : bool;
  AllLoadsAndStoresForArbalest : list MemInst
}.

Definition flush (c : Collected) : Collected :=
  {| AllLoadsAndStores :=
       chooseInstructionsToInstrument (LocalLoadsAndStores c)
                                      (AllLoadsAndStores c);
     LocalLoadsAndStores := [];
     AtomicAccesses := AtomicAccesses c;
     MemIntrinCalls := MemIntrinCalls c;
     HasCalls := HasCalls c;
     AllLoadsAndStoresForArbalest :=
       if ClArbalest
       then Arbalest_chooseInstructionsToInstrument
              (LocalLoadsAndStores c) (AllLoadsAndStoresForArbalest c)
       else AllLoadsAndStoresForArbalest c |}.

Definition collect_inst (c : Collected) (I : Sorted) : Collected :=
  match I with
  | SAtomic id =>
      {| AllLoadsAndStores := AllLoadsAndStores c;
         LocalLoadsAndStores := LocalLoadsAndStores c;
         AtomicAccesses := AtomicAccesses c ++ [id];
         MemIntrinCalls := MemIntrinCalls c;
         HasCalls := HasCalls c;
         AllLoadsAndStoresForArbalest := AllLoadsAndStoresForArbalest c |}
  | SMem m =>
      {| AllLoadsAndStores := AllLoadsAndStores c;
         LocalLoadsAndStores := LocalLoadsAndStores c ++ [m];
         AtomicAccesses := AtomicAccesses c;
         MemIntrinCalls := MemIntrinCalls c;
         HasCalls := HasCalls c;
         AllLoadsAndStoresForArbalest := AllLoadsAndStoresForArbalest c |}
  | SCall id isMemIntrinsic =>
      flush
        {| AllLoadsAndStores := AllLoadsAndStores c;
           LocalLoadsAndStores := LocalLoadsAndStores c;
           AtomicAccesses := AtomicAccesses c;
           MemIntrinCalls :=
             if isMemIntrinsic then MemIntrinCalls c ++ [id]
             else MemIntrinCalls c;
           HasCalls := true;
           AllLoadsAndStoresForArbalest := AllLoadsAndStoresForArbalest c |}
  | SOther _ => c
  end.

(** The traversal: every block instruction by instruction, with a flush
    at each call and at the end of each block. *)
Definition collect (F : list (list Sorted)) : Collected :=
  foldl (fun c BB => flush (foldl collect_inst c BB))
        {| AllLoadsAndStores := []; LocalLoadsAndStores := [];
           AtomicAccesses := []; MemIntrinCalls := []; HasCalls := false;
           AllLoadsAndStoresForArbalest := [] |}
        F.

Definition mem_insts (F : list (list Sorted)) : list MemInst :=
  omap (fun I => match I with SMem m => Some m | _ => None end) (concat F).

Definition arbalest_wants (I : MemInst) : bool :=
  shouldInstrumentReadWriteFromAddress (Addr I)
  && (IsWrite I || negb (addrPointsToConstantData (Addr I))).

(** Entries flagged compound are writes, and not volatile ones when
    volatile accesses are told apart. *)
Definition flags_ok (All : list InstructionInfo) : Prop :=
  Forall (fun II => is_compound II = true ->
                    IsWrite (Inst II) = true
                    /\ (ClDistinguishVolatile = true -> isVolatile (Inst II) = false))
         All.

(** A write target is the index of a write to that address. *)
Definition targets_ok (WT : list (Value * nat))
    (All : list InstructionInfo) : Prop :=
  forall p, In p WT ->
            exists II, All !! p.2 = Some II
                       /\ IsWrite (Inst II) = true
                       /\ Addr (Inst II) = p.1.

(** What a run of steps leaves in [All]: the old entries, possibly
    flagged, and new entries for accesses that Arbalest wants too. *)
Definition from_old_or (l : list MemInst) (All All' : list InstructionInfo)
  : Prop :=
  forall II, In II All' ->
             (exists II0, In II0 All /\ Inst II = Inst II0)
             \/ (In (Inst II) l /\ arbalest_wants (Inst II) = true).

Definition sel_mem (I : Sorted) : option MemInst :=
  match I with
  | SMem m => Some m
  | _ => None
  end.


(** What the traversal keeps true, [ms] being the plain accesses met so
    far. *)
Definition collected_ok (c : Collected) (ms : list MemInst) : Prop :=
  (forall m, In m (LocalLoadsAndStores c) -> In m ms)
  /\ (forall II, In II (AllLoadsAndStores c) ->
                 In (Inst II) ms /\ arbalest_wants (Inst II) = true)
  /\ flags_ok (AllLoadsAndStores c)
  /\ (ClArbalest = true ->
      Permutation
        (AllLoadsAndStoresForArbalest c
           ++ List.filter arbalest_wants (LocalLoadsAndStores c))
        (List.filter arbalest_wants ms))
  /\ (ClArbalest = true ->
      forall II, In II (AllLoadsAndStores c) ->
                 In (Inst II) (AllLoadsAndStoresForArbalest c))
  /\ (ClArbalest = false -> AllLoadsAndStoresForArbalest c = []).

Definition has_compound_write (a : Value) (All : list InstructionInfo)
  : Prop :=
  exists II, In II All /\ is_compound II = true
             /\ IsWrite (Inst II) = true /\ Addr (Inst II) = a.

End Selection.

(** ** The outlined-function prefix *)

Definition OptPrefix : string := ".omp_outlined".
Definition DebugPrefix : string := ".omp_outlined._debug__".

(** [setOmpOutlinedFuncPrefix]: the string stored in the module flag
    that [Arbalest::initialize] reads back, given the function names. *)
Definition setOmpOutlinedFuncPrefix (ClOMPDebugMode : bool)
    (names : list string) : string :=
  let UseOptPrefix :=
    negb (ClOMPDebugMode && existsb (String.prefix DebugPrefix) names) in
  if UseOptPrefix then OptPrefix else DebugPrefix.

(** ** Global variable information *)

Record GlobalVariable := { GName : string; GStoreSize : Z }.

Definition isUserDefinedGlob (G : GlobalVariable) : bool :=
  negb (String.eqb (GName G) "")
  && negb (String.prefix "." (GName G))
  && negb (String.prefix "llvm" (GName G)).

(** What [insertGlobalVariableInfo] leaves in [GlobInfo]: the initialisers
    of [arbalest_global_ptr], [arbalest_global_size] and
    [arbalest_global_name]. *)
Record GlobInfo := {
  Globals : list GlobalVariable;
  GlobalsSize : list Z;
  GlobalsName : list string
}.

Definition insertGlobalVariableInfo (globals : list GlobalVariable)
  : Z * option GlobInfo :=
  let UserDefinedGlobs := List.filter isUserDefinedGlob globals in
  match UserDefinedGlobs with
  | [] => (0, None)
  | _ =>
      (Z.of_nat (length UserDefinedGlobs) mod 2 ^ 32,
       Some {| Globals := UserDefinedGlobs;
               GlobalsSize := GStoreSize <$> UserDefinedGlobs;
               GlobalsName := GName <$> UserDefinedGlobs |})
  end.

(** The constructors [insertModuleCtor] creates: name, init function and
    the arguments passed to it. *)
Record Ctor := {
  CtorName : string;
  InitName : string;
  InitCount : option Z;
  InitInfo : option GlobInfo
}.

Definition kTsanInitName : string := "__tsan_init".
Definition kArbalestModuleCtorName : string := "arbalest.module_ctor".
Definition kArbalestInitName : string := "__arbalest_init".

Definition insertModuleCtor (ClEnableArbalest : bool) (TargetTriple : string)
    (globals : list GlobalVariable) : list Ctor :=
  let IsHostModule := String.eqb TargetTriple "x86_64-unknown-linux-gnu" in
  let info :=
    if IsHostModule && ClEnableArbalest
    then insertGlobalVariableInfo globals else (0, None) in
  {| CtorName := kTsanModuleCtorName; InitName := kTsanInitName;
     InitCount := None; InitInfo := None |}
  :: (if IsHostModule && ClEnableArbalest
      then [ {| CtorName := kArbalestModuleCtorName;
                InitName := kArbalestInitName;
                InitCount := Some info.1; InitInfo := info.2 |} ]
      else []).

(** ** Examples *)

(** Three annotations: a range, the same range again, and another one. *)
Definition benign_calls_example : list BenignCall :=
  [ {| b_file := "a.c"; b_line := 10; b_mem := 0x1000; b_size := 8;
       b_desc := Some "counter" |};
    {| b_file := "a.c"; b_line := 20; b_mem := 0x1000; b_size := 8;
       b_desc := Some "again" |};
    {| b_file := "b.c"; b_line := 5; b_mem := 0x2000; b_size := 4;
       b_desc := None |} ].

(** A four-byte load and a four-byte store through the same pointer. *)
Definition load_example : MemInst :=
  {| ident := 1; IsWrite := false; Addr := Argument 0; AccessBits := 32;
     Alignment := 4; isVolatile := false; isVtableAccess := false;
     isSwiftError := false |}.

Definition store_example : MemInst :=
  {| ident := 2; IsWrite := true; Addr := Argument 0; AccessBits := 32;
     Alignment := 4; isVolatile := false; isVtableAccess := false;
     isSwiftError := false |}.

(** A load of a type whose store size in bits does not fit 32 bits. *)
Definition wide_load_example : MemInst :=
  {| ident := 5; IsWrite := false; Addr := Argument 0;
     AccessBits := 2 ^ 32 + 32; Alignment := 4; isVolatile := false;
     isVtableAccess := false; isSwiftError := false |}.


(** A block that reads, writes, and then calls. *)
Definition sorted_example : list (list Sorted) :=
  [ [ SMem load_example; SMem store_example; SCall 3 false; SOther 4 ] ].

(** A string literal, a user variable and a compiler-generated global. *)
Definition globals_example : list GlobalVariable :=
  [ {| GName := ".str"; GStoreSize := 4 |};
    {| GName := "counter"; GStoreSize := 8 |};
    {| GName := "llvm.used"; GStoreSize := 8 |} ].

(* ===================================================================== *)
(** * Part III: properties of the runtime                                 *)
(* ===================================================================== *)

(** ** Intervals *)

Lemma overlaps_spec (a b : Interval) :
  overlaps a b = true <-> exists x, contains a x /\ contains b x.
Proof.
  unfold overlaps, contains. rewrite Z.ltb_lt. split.
  - intros H. exists (Z.max (left_end a) (left_end b)). lia.
  - intros (x & Ha & Hb). lia.
Qed.

Lemma overlaps_false (a b : Interval) (x : Z) :
  overlaps a b = false -> contains a x -> contains b x -> False.
Proof.
  intros Hf Ha Hb.
  assert (overlaps a b = true) as Ht by (apply overlaps_spec; eauto).
  congruence.
Qed.

Lemma overlaps_adjacent (l m r : Z) :
  overlaps {| left_end := l; right_end := m |}
           {| left_end := m; right_end := r |} = false.
Proof. unfold overlaps. simpl. apply Z.ltb_ge. lia. Qed.

Lemma FindRace_find (list : list Race.ExpectRace) (addr size : Z) :
  FindRace list addr size =
  List.find
    (fun race =>
       overlaps {| left_end := Race.addr race;
                   right_end := uptr (Race.addr race + Race.size race) |}
                {| left_end := addr; right_end := uptr (addr + size) |})
    list.
Proof.
  induction list as [|race rest IH]; simpl; [done|].
  unfold overlaps at 1. simpl. by rewrite IH.
Qed.

(** C8.  Intervals are half-open: the overlap test (the one [FindRace]
    performs, [max] of the begins below [min] of the ends) holds exactly
    when the two ranges share an address, and a range never overlaps the
    range starting at its end.  Consequently, for a mapped range of
    length [sz] at [base], [check_bound] of an access of size [sz] at
    [base + sz] reports an out-of-bound violation, while
    [check_bound (base, base + sz - 1, 1)] reports nothing. *)
Theorem half_open_intervals_and_bound
    (a b : Interval) (races : list Race.ExpectRace) (addr len : Z)
    (tr : IntervalTree.t) (n : Node) (base sz : Z) :
  0 < sz ->
  IntervalTree.find tr {| left_end := base; right_end := base + 1 |} = Some n ->
  size (info n) = sz ->
  (overlaps a b = true <-> exists x, contains a x /\ contains b x)
  /\ overlaps a {| left_end := right_end a; right_end := right_end b |} = false
  /\ FindRace races addr len =
     List.find
       (fun race =>
          overlaps {| left_end := Race.addr race;
                      right_end := uptr (Race.addr race + Race.size race) |}
                   {| left_end := addr; right_end := uptr (addr + len) |})
       races
  /\ check_bound tr base (base + sz) sz =
     [ {| kind := OutOfBound; address := base + sz; access_size := sz |} ]
  /\ check_bound tr base (base + sz - 1) 1 = [].
Proof.
  intros Hsz Hfind Hn. split; [apply overlaps_spec|].
  split; [destruct a; apply overlaps_adjacent|].
  split; [apply FindRace_find|].
  unfold check_bound. rewrite Hfind, Hn. split.
  - replace (base <=? base + sz) with true by (symmetry; apply Z.leb_le; lia).
    replace (base + sz + sz <=? base + sz) with false
      by (symmetry; apply Z.leb_gt; lia).
    done.
  - replace (base <=? base + sz - 1) with true
      by (symmetry; apply Z.leb_le; lia).
    replace (base + sz - 1 + 1 <=? base + sz) with true
      by (symmetry; apply Z.leb_le; lia).
    done.
Qed.

(** ** Shadow cells *)

Lemma cells_of_covers (k addr bytes x : Z) :
  0 < k -> addr <= x < addr + bytes -> x / k ∈ cells_of k addr bytes.
Proof.
  intros Hk Hx. unfold cells_of.
  destruct (Z.leb_spec bytes 0) as [?|_]; [lia|].
  apply elem_of_seqZ.
  assert (addr / k <= x / k) by (apply Z.div_le_mono; lia).
  assert (x / k <= (addr + bytes - 1) / k) by (apply Z.div_le_mono; lia).
  lia.
Qed.

Lemma cells_of_inv (k addr bytes c : Z) :
  0 < k -> c ∈ cells_of k addr bytes ->
  exists x, addr <= x < addr + bytes /\ c = x / k.
Proof.
  intros Hk. unfold cells_of.
  destruct (Z.leb_spec bytes 0) as [?|Hb]; [by intros ?%elem_of_nil|].
  intros [Hlo Hhi]%elem_of_seqZ.
  destruct (decide (c = addr / k)) as [->|Hne].
  - exists addr. lia.
  - exists (c * k). split; [|by rewrite Z.div_mul by lia].
    assert (addr / k + 1 <= c) as H1 by lia.
    assert (c <= (addr + bytes - 1) / k) as H2 by lia.
    pose proof (Z.mul_div_le addr k Hk).
    pose proof (Z.mod_pos_bound addr k Hk).
    pose proof (Z.div_mod addr k ltac:(lia)).
    pose proof (Z.mul_div_le (addr + bytes - 1) k Hk).
    nia.
Qed.

Lemma cells_of_subrange (k addr sz base bytes c : Z) :
  0 < k -> base <= addr -> addr + sz <= base + bytes ->
  c ∈ cells_of k addr sz -> c ∈ cells_of k base bytes.
Proof.
  intros Hk Hlo Hhi Hc.
  destruct (cells_of_inv _ _ _ _ Hk Hc) as (x & Hx & ->).
  apply cells_of_covers; lia.
Qed.

Lemma lookup_range_update (f : Cell -> Cell) (l : list Z)
    (sh : gmap Z Cell) (c : Z) :
  NoDup l ->
  foldr (fun c m => <[ c := f (default fresh_cell (m !! c)) ]> m) sh l !! c
  = if decide (c ∈ l) then Some (f (default fresh_cell (sh !! c)))
    else sh !! c.
Proof.
  induction 1 as [|a l Ha Hl IH]; cbn [foldr].
  - case_decide as Hin; [by apply elem_of_nil in Hin|done].
  - destruct (decide (a = c)) as [->|Hne].
    + rewrite lookup_insert_eq, IH.
      destruct (decide (c ∈ l)); [done|].
      destruct (decide (c ∈ c :: l)) as [|Hn]; [done|].
      exfalso. apply Hn, list_elem_of_here.
    + rewrite lookup_insert_ne by done. rewrite IH.
      destruct (decide (c ∈ l)) as [Hin|Hnin];
        destruct (decide (c ∈ a :: l)) as [Hin'|Hnin']; try done.
      * exfalso. apply Hnin'. by apply list_elem_of_further.
      * apply elem_of_cons in Hin' as [?|?]; congruence.
Qed.

Lemma NoDup_cells_of (k addr bytes : Z) : NoDup (cells_of k addr bytes).
Proof.
  unfold cells_of. destruct (bytes <=? 0); [constructor|apply NoDup_seqZ].
Qed.

Lemma lookup_VsmRangeUpdate (f : Cell -> Cell) (k addr bytes : Z)
    (sh : gmap Z Cell) (c : Z) :
  VsmRangeUpdate f k addr bytes sh !! c
  = if decide (c ∈ cells_of k addr bytes)
    then Some (f (default fresh_cell (sh !! c)))
    else sh !! c.
Proof. apply lookup_range_update, NoDup_cells_of. Qed.

Lemma check_access_unmarked (k : Z) (s : Side) (tr : IntervalTree.t)
    (sh : gmap Z Cell) (addr sz a : Z) :
  shadow_address tr s addr = Some a ->
  (forall c, c ∈ cells_of k a sz -> unmarked s sh c) ->
  check_access k s tr sh addr sz
  = List.map (fun _ => {| kind := Inconsistency; address := addr;
                          access_size := sz |})
             (cells_of k a sz).
Proof.
  unfold check_access. intros ->. generalize (cells_of k a sz) as l.
  induction l as [|c l IH]; intros H; simpl; [done|].
  destruct (H c) as (cell & -> & ->); [apply list_elem_of_here|].
  f_equal. apply IH. intros c' Hc'. apply H. by apply list_elem_of_further.
Qed.

Lemma check_access_marked (k : Z) (s : Side) (tr : IntervalTree.t)
    (sh : gmap Z Cell) (addr sz a : Z) :
  shadow_address tr s addr = Some a ->
  (forall c, c ∈ cells_of k a sz -> marked s sh c) ->
  check_access k s tr sh addr sz = [].
Proof.
  unfold check_access. intros ->. generalize (cells_of k a sz) as l.
  induction l as [|c l IH]; intros H; simpl; [done|].
  destruct (H c) as (cell & -> & ->); [apply list_elem_of_here|].
  apply IH. intros c' Hc'. apply H. by apply list_elem_of_further.
Qed.

(** ** The registry *)

Lemma conflict_true (tr : IntervalTree.t) (i : Interval) :
  IntervalTree.conflict tr i = true <->
  exists n, n ∈ tr /\ overlaps (interval n) i = true.
Proof.
  unfold IntervalTree.conflict. rewrite existsb_exists.
  by setoid_rewrite list_elem_of_In.
Qed.

Lemma conflict_false (tr : IntervalTree.t) (i : Interval) :
  IntervalTree.conflict tr i = false <->
  forall n, n ∈ tr -> overlaps (interval n) i = false.
Proof.
  split.
  - intros Hc n Hn. destruct (overlaps (interval n) i) eqn:Ho; [|done].
    assert (IntervalTree.conflict tr i = true) by (apply conflict_true; eauto).
    congruence.
  - intros H. destruct (IntervalTree.conflict tr i) eqn:Hc; [|done].
    apply conflict_true in Hc as (n & Hn & Ho). rewrite (H n Hn) in Ho. done.
Qed.

Lemma removeAll_no_conflict (tr : IntervalTree.t) (i : Interval) :
  IntervalTree.conflict tr i = false ->
  IntervalTree.removeAllNodesWithinRange tr i = tr.
Proof.
  unfold IntervalTree.conflict, IntervalTree.removeAllNodesWithinRange.
  induction tr as [|n tr IH]; simpl; [done|].
  intros [Hn Htr]%orb_false_elim. rewrite Hn. simpl. by rewrite IH.
Qed.

Lemma conflict_removeAll (tr : IntervalTree.t) (i : Interval) :
  IntervalTree.conflict (IntervalTree.removeAllNodesWithinRange tr i) i = false.
Proof.
  apply conflict_false. intros n Hn.
  apply list_elem_of_In, filter_In in Hn as [_ Hn].
  by apply negb_true_iff in Hn.
Qed.

Lemma elem_of_removeAll (tr : IntervalTree.t) (i : Interval) (n : Node) :
  n ∈ IntervalTree.removeAllNodesWithinRange tr i <->
  n ∈ tr /\ overlaps (interval n) i = false.
Proof.
  unfold IntervalTree.removeAllNodesWithinRange.
  rewrite !list_elem_of_In, filter_In. by rewrite negb_true_iff.
Qed.

Lemma host_insert_repair (tr : IntervalTree.t) (i : Interval) (m : MapInfo) :
  (if negb (fst (IntervalTree.insert tr i m)) then
     snd (IntervalTree.insert
            (IntervalTree.removeAllNodesWithinRange
               (snd (IntervalTree.insert tr i m)) i) i m)
   else snd (IntervalTree.insert tr i m)) = host_side_after tr i m.
Proof.
  unfold host_side_after, IntervalTree.insert.
  destruct (IntervalTree.conflict tr i) eqn:Hc; simpl.
  - by rewrite conflict_removeAll.
  - by rewrite removeAll_no_conflict.
Qed.

Lemma find_Some_split (tr : IntervalTree.t) (i : Interval) (n : Node) :
  IntervalTree.find tr i = Some n ->
  exists l1 l2,
    tr = l1 ++ n :: l2
    /\ IntervalTree.conflict l1 i = false
    /\ overlaps (interval n) i = true
    /\ IntervalTree.remove tr i = l1 ++ l2.
Proof.
  unfold IntervalTree.find, IntervalTree.conflict.
  induction tr as [|m tr IH]; simpl; [done|].
  destruct (overlaps (interval m) i) eqn:Ho.
  - intros [= ->]. by exists [], tr.
  - intros (l1 & l2 & -> & Hc & Hn & Hr)%IH.
    exists (m :: l1), l2. simpl. rewrite Ho, Hr. done.
Qed.

(** ** The steps of the hook *)

Lemma bind_Ok (o : Outcome) (f : State -> Outcome) (st' : State) :
  o >>= f = Ok st' -> exists st1, o = Ok st1 /\ f st1 = Ok st'.
Proof. destruct o; simpl; [eauto|discriminate]. Qed.

Lemma on_alloc_Ok (optype : Z) (st : State) : on_alloc optype st = Ok st.
Proof. unfold on_alloc. by destruct (has_flag _ _). Qed.

Lemma on_release_Ok (optype : Z) (st : State) : on_release optype st = Ok st.
Proof. unfold on_release. by destruct (has_flag _ _). Qed.

Section Steps.
Variable P : Platform.
Variables (src_addr dest_addr bytes optype codeptr : Z).
Variable var_name : option string.

Local Abbreviation hostI := (host src_addr bytes).
Local Abbreviation targetI := (target dest_addr bytes).
Local Abbreviation mhI := (mh src_addr bytes var_name).
Local Abbreviation mtI := (mt dest_addr bytes var_name).
Local Abbreviation k := (kShadowCell P).

(** The [associate] branch, case by case. *)
Lemma on_associate_skip (st : State) :
  has_flag optype ompt_device_mem_flag_associate = false ->
  on_associate P src_addr dest_addr bytes optype var_name st = Ok st.
Proof. unfold on_associate. by intros ->. Qed.

Lemma on_associate_conflict (st : State) :
  has_flag optype ompt_device_mem_flag_associate = true ->
  IntervalTree.conflict (t_to_h st) targetI = true ->
  on_associate P src_addr dest_addr bytes optype var_name st
  = Fatal (AlreadyInvolved dest_addr)
          (set_t_to_h (set_h_to_t st (host_side_after (h_to_t st) hostI mtI))
                      (t_to_h st)).
Proof.
  intros Hf Hc. unfold on_associate. rewrite Hf. cbv zeta.
  rewrite host_insert_repair.
  unfold IntervalTree.insert. by rewrite Hc.
Qed.

Lemma on_associate_fresh (st : State) :
  has_flag optype ompt_device_mem_flag_associate = true ->
  IntervalTree.conflict (t_to_h st) targetI = false ->
  on_associate P src_addr dest_addr bytes optype var_name st
  = let st1 :=
      set_t_to_h (set_h_to_t st (host_side_after (h_to_t st) hostI mtI))
                 (t_to_h st ++ [ {| interval := targetI; info := mhI |} ]) in
    Ok (if has_flag optype ompt_device_mem_flag_to then st1
        else set_shadow st1
               (VsmRangeDeviceReset k src_addr bytes (shadow st))).
Proof.
  intros Hf Hc. unfold on_associate. rewrite Hf. cbv zeta.
  rewrite host_insert_repair.
  unfold IntervalTree.insert. rewrite Hc. simpl.
  by destruct (has_flag optype ompt_device_mem_flag_to).
Qed.

End Steps.

Section Tail.
Variable P : Platform.
Variables (src_addr dest_addr bytes optype codeptr : Z).
Variable var_name : option string.

Local Abbreviation targetI := (target dest_addr bytes).
Local Abbreviation k := (kShadowCell P).
Local Abbreviation rest_of_hook :=
  (after_associate P src_addr dest_addr bytes optype codeptr var_name).

Lemma AnnotateMapping_enabled (st : State) :
  enable_annotations P = true ->
  AnnotateMapping P src_addr dest_addr bytes optype codeptr var_name st
  = through_associate P src_addr dest_addr bytes optype var_name st
    >>= rest_of_hook.
Proof.
  intros He. unfold AnnotateMapping, through_from, after_associate.
  rewrite He. simpl.
  by destruct (through_associate P src_addr dest_addr bytes optype
                 var_name st).
Qed.

(** When the device interval is registered, every later branch goes
    through. *)
Lemma after_associate_hit (mid : State) (n : Node) :
  IntervalTree.find (t_to_h mid) targetI = Some n ->
  exists st',
    rest_of_hook mid = Ok st'
    /\ h_to_t st' = h_to_t mid
    /\ t_to_h st' =
       (if has_flag optype ompt_device_mem_flag_disassociate
        then IntervalTree.remove (t_to_h mid) targetI else t_to_h mid)
    /\ shadow st' = transfers k optype src_addr bytes (shadow mid).
Proof.
  intros Hf.
  unfold after_associate, on_to, on_from, on_transfer, on_disassociate,
    transfers.
  destruct (has_flag optype ompt_device_mem_flag_to);
    destruct (has_flag optype ompt_device_mem_flag_from);
    destruct (has_flag optype ompt_device_mem_flag_disassociate);
    simpl; rewrite ?Hf; simpl; rewrite ?Hf; simpl; rewrite ?Hf; simpl;
    rewrite on_release_Ok; eexists; (split; [reflexivity|done]).
Qed.

(** When it is not, the first branch that looks it up dies, and nothing
    but reports has been added to the state. *)
Lemma after_associate_miss (mid : State) :
  IntervalTree.find (t_to_h mid) targetI = None ->
  (has_flag optype ompt_device_mem_flag_to
   || has_flag optype ompt_device_mem_flag_from
   || has_flag optype ompt_device_mem_flag_disassociate) = true ->
  exists st1,
    rest_of_hook mid
    = Fatal (NotInvolved
               (if has_flag optype ompt_device_mem_flag_to then StageTo
                else if has_flag optype ompt_device_mem_flag_from
                     then StageFrom else StageDisassociate)
               (left_end targetI) (right_end targetI)) st1
    /\ h_to_t st1 = h_to_t mid
    /\ t_to_h st1 = t_to_h mid
    /\ shadow st1 = shadow mid.
Proof.
  intros Hf.
  unfold after_associate, on_to, on_from, on_transfer, on_disassociate.
  destruct (has_flag optype ompt_device_mem_flag_to);
    destruct (has_flag optype ompt_device_mem_flag_from);
    destruct (has_flag optype ompt_device_mem_flag_disassociate);
    simpl; rewrite ?Hf; simpl; try discriminate;
    intros _; eexists; (split; [reflexivity|done]).
Qed.

Lemma through_associate_unfold (st : State) :
  (IsAppMem P src_addr
   && IsAppMem P (uptr (uptr (src_addr + bytes) - 1))) = true ->
  through_associate P src_addr dest_addr bytes optype var_name st
  = on_associate P src_addr dest_addr bytes optype var_name st.
Proof.
  intros Ha. unfold through_associate, check_app_mem, ASSERT. simpl.
  rewrite Ha. simpl. by rewrite on_alloc_Ok.
Qed.

Lemma through_associate_app_mem (st mid : State) :
  through_associate P src_addr dest_addr bytes optype var_name st = Ok mid ->
  (IsAppMem P src_addr
   && IsAppMem P (uptr (uptr (src_addr + bytes) - 1))) = true.
Proof.
  unfold through_associate, check_app_mem, ASSERT. simpl.
  by destruct (IsAppMem P src_addr
               && IsAppMem P (uptr (uptr (src_addr + bytes) - 1))).
Qed.

(** The state with which the hook leaves the [associate] branch. *)
Lemma through_associate_Ok (st mid : State) :
  through_associate P src_addr dest_addr bytes optype var_name st = Ok mid ->
  if has_flag optype ompt_device_mem_flag_associate then
    IntervalTree.conflict (t_to_h st) targetI = false
    /\ h_to_t mid =
       host_side_after (h_to_t st) (host src_addr bytes)
                       (mt dest_addr bytes var_name)
    /\ t_to_h mid =
       t_to_h st ++ [ {| interval := targetI;
                         info := mh src_addr bytes var_name |} ]
    /\ shadow mid =
       (if has_flag optype ompt_device_mem_flag_to then shadow st
        else VsmRangeDeviceReset k src_addr bytes (shadow st))
  else mid = st.
Proof.
  intros H. pose proof (through_associate_app_mem _ _ H) as Ha.
  rewrite through_associate_unfold in H by done.
  destruct (has_flag optype ompt_device_mem_flag_associate) eqn:Hf.
  - destruct (IntervalTree.conflict (t_to_h st) targetI) eqn:Hc.
    + by rewrite on_associate_conflict in H.
    + rewrite on_associate_fresh in H by done. simpl in H.
      injection H as <-.
      by destruct (has_flag optype ompt_device_mem_flag_to).
  - rewrite on_associate_skip in H by done. by injection H.
Qed.

End Tail.

(** ** The claims about [AnnotateMapping] *)

(** C3.  An [associate] event whose device interval overlaps a record of
    the device-to-host side dies with the "already involved in a mapping"
    diagnostic, and the device-to-host side is left exactly as it was:
    the old record stays, nothing is removed or re-inserted there (the
    host side, for its part, has been repaired by then). *)
Theorem device_conflict_is_fatal
    (P : Platform) (src_addr dest_addr bytes optype codeptr : Z)
    (var_name : option string) (st : State) (n : Node) :
  enable_annotations P = true ->
  (IsAppMem P src_addr
   && IsAppMem P (uptr (uptr (src_addr + bytes) - 1))) = true ->
  has_flag optype ompt_device_mem_flag_associate = true ->
  n ∈ t_to_h st ->
  overlaps (interval n) (target dest_addr bytes) = true ->
  exists st1,
    AnnotateMapping P src_addr dest_addr bytes optype codeptr var_name st
    = Fatal (AlreadyInvolved dest_addr) st1
    /\ t_to_h st1 = t_to_h st
    /\ n ∈ t_to_h st1
    /\ h_to_t st1 =
       host_side_after (h_to_t st) (host src_addr bytes)
                       (mt dest_addr bytes var_name).
Proof.
  intros He Ha Hf Hn Ho.
  rewrite AnnotateMapping_enabled by done.
  rewrite through_associate_unfold by done.
  rewrite on_associate_conflict by (try apply conflict_true; eauto).
  simpl. eexists. split; [reflexivity|]. by simpl.
Qed.

(** C4.  Take an event with the [disassociate] flag that has passed the
    [associate] branch, leaving the state [mid] (which is the initial
    state when the event does not associate).  If the device interval
    has no record on the device-to-host side, the event dies with a
    "does not involve in any mapping" diagnostic and both registry sides
    are those of [mid]: nothing was mutated.  If it has the record [n],
    the event completes, the host side is untouched and the
    device-to-host side loses exactly that record. *)
Theorem disassociate_lookup
    (P : Platform) (src_addr dest_addr bytes optype codeptr : Z)
    (var_name : option string) (st mid : State) :
  enable_annotations P = true ->
  has_flag optype ompt_device_mem_flag_disassociate = true ->
  through_associate P src_addr dest_addr bytes optype var_name st = Ok mid ->
  (has_flag optype ompt_device_mem_flag_associate = false -> mid = st)
  /\ (IntervalTree.find (t_to_h mid) (target dest_addr bytes) = None ->
      exists st1,
        AnnotateMapping P src_addr dest_addr bytes optype codeptr var_name st
        = Fatal (NotInvolved
                   (if has_flag optype ompt_device_mem_flag_to then StageTo
                    else if has_flag optype ompt_device_mem_flag_from
                         then StageFrom else StageDisassociate)
                   (left_end (target dest_addr bytes))
                   (right_end (target dest_addr bytes))) st1
        /\ h_to_t st1 = h_to_t mid
        /\ t_to_h st1 = t_to_h mid)
  /\ (forall n,
        IntervalTree.find (t_to_h mid) (target dest_addr bytes) = Some n ->
        exists st' l1 l2,
          AnnotateMapping P src_addr dest_addr bytes optype codeptr var_name st
          = Ok st'
          /\ t_to_h mid = l1 ++ n :: l2
          /\ t_to_h st' = l1 ++ l2
          /\ h_to_t st' = h_to_t mid).
Proof.
  intros He Hd Hmid. split; [|split].
  - intros Hf. pose proof (through_associate_Ok _ _ _ _ _ _ _ _ Hmid) as H.
    by rewrite Hf in H.
  - intros Hfind.
    rewrite AnnotateMapping_enabled, Hmid by done. simpl.
    destruct (after_associate_miss P src_addr dest_addr bytes optype codeptr
                var_name mid Hfind) as (st1 & -> & Hh & Ht & _).
    { rewrite Hd. by rewrite !orb_true_r. }
    eauto.
  - intros n Hfind.
    rewrite AnnotateMapping_enabled, Hmid by done. simpl.
    destruct (after_associate_hit P src_addr dest_addr bytes optype codeptr
                var_name mid n Hfind) as (st' & -> & Hh & Ht & _).
    rewrite Hd in Ht.
    destruct (find_Some_split _ _ _ Hfind) as (l1 & l2 & Hsplit & _ & _ & Hr).
    exists st', l1, l2. by rewrite Ht, Hr.
Qed.

(** ** Marks under range updates *)

Lemma marked_update_set (s : Side) (f : Cell -> Cell) (k addr bytes : Z)
    (sh : gmap Z Cell) (c : Z) :
  (forall cell, cell_valid s (f cell) = true) ->
  c ∈ cells_of k addr bytes ->
  marked s (VsmRangeUpdate f k addr bytes sh) c.
Proof.
  intros Hf Hc. unfold marked. rewrite lookup_VsmRangeUpdate.
  rewrite decide_True by done. eauto.
Qed.

Lemma unmarked_update_set (s : Side) (f : Cell -> Cell) (k addr bytes : Z)
    (sh : gmap Z Cell) (c : Z) :
  (forall cell, cell_valid s (f cell) = false) ->
  c ∈ cells_of k addr bytes ->
  unmarked s (VsmRangeUpdate f k addr bytes sh) c.
Proof.
  intros Hf Hc. unfold unmarked. rewrite lookup_VsmRangeUpdate.
  rewrite decide_True by done. eauto.
Qed.

Lemma marked_update_keep (s : Side) (f : Cell -> Cell) (k addr bytes : Z)
    (sh : gmap Z Cell) (c : Z) :
  (forall cell, cell_valid s cell = true -> cell_valid s (f cell) = true) ->
  marked s sh c ->
  marked s (VsmRangeUpdate f k addr bytes sh) c.
Proof.
  intros Hf (cell & Hc & Hv). unfold marked. rewrite lookup_VsmRangeUpdate.
  case_decide; [|eauto]. rewrite Hc. simpl. eauto.
Qed.

Lemma unmarked_update_keep (s : Side) (f : Cell -> Cell) (k addr bytes : Z)
    (sh : gmap Z Cell) (c : Z) :
  (forall cell, cell_valid s cell = false -> cell_valid s (f cell) = false) ->
  unmarked s sh c ->
  unmarked s (VsmRangeUpdate f k addr bytes sh) c.
Proof.
  intros Hf (cell & Hc & Hv). unfold unmarked. rewrite lookup_VsmRangeUpdate.
  case_decide; [|eauto]. rewrite Hc. simpl. eauto.
Qed.

Lemma transfers_to_marks (k optype src_addr bytes : Z) (sh : gmap Z Cell)
    (c : Z) :
  has_flag optype ompt_device_mem_flag_to = true ->
  c ∈ cells_of k src_addr bytes ->
  marked Device (transfers k optype src_addr bytes sh) c.
Proof.
  intros Ht Hc. unfold transfers. rewrite Ht.
  assert (marked Device (VsmRangeUpdateMapTo k src_addr bytes sh) c) as Hm
    by (by apply marked_update_set).
  destruct (has_flag optype ompt_device_mem_flag_from); [|done].
  by apply marked_update_keep.
Qed.

Lemma transfers_from_marks (k optype src_addr bytes : Z) (sh : gmap Z Cell)
    (c : Z) :
  has_flag optype ompt_device_mem_flag_from = true ->
  c ∈ cells_of k src_addr bytes ->
  marked Host (transfers k optype src_addr bytes sh) c.
Proof.
  intros Hf Hc. unfold transfers. rewrite Hf. by apply marked_update_set.
Qed.

Lemma transfers_keep_unmarked (k optype src_addr bytes : Z)
    (sh : gmap Z Cell) (c : Z) :
  has_flag optype ompt_device_mem_flag_to = false ->
  unmarked Device sh c ->
  unmarked Device (transfers k optype src_addr bytes sh) c.
Proof.
  intros Ht Hc. unfold transfers. rewrite Ht.
  destruct (has_flag optype ompt_device_mem_flag_from); [|done].
  by apply unmarked_update_keep.
Qed.

(** C5.  Take an event that has passed the [associate] branch, leaving
    the state [mid].  With the [to] flag, the device interval is looked
    up on the device-to-host side: if it is absent the event dies with
    the "[to] ... does not involve in any mapping" diagnostic, and if it
    is present the event completes and every cell covering the mapped
    range has [device_has_value] set.  With the [from] flag the same
    lookup is required (its failure is fatal, under the [from] label
    unless [to] has died first), and on success every such cell has
    [host_has_value] set. *)
Theorem transfer_lookup_and_marks
    (P : Platform) (src_addr dest_addr bytes optype codeptr : Z)
    (var_name : option string) (st mid : State) :
  enable_annotations P = true ->
  0 < kShadowCell P ->
  through_associate P src_addr dest_addr bytes optype var_name st = Ok mid ->
  (IntervalTree.find (t_to_h mid) (target dest_addr bytes) = None ->
   (has_flag optype ompt_device_mem_flag_to = true ->
    exists st1,
      AnnotateMapping P src_addr dest_addr bytes optype codeptr var_name st
      = Fatal (NotInvolved StageTo (left_end (target dest_addr bytes))
                           (right_end (target dest_addr bytes))) st1
      /\ shadow st1 = shadow mid)
   /\ (has_flag optype ompt_device_mem_flag_to = false ->
       has_flag optype ompt_device_mem_flag_from = true ->
       exists st1,
         AnnotateMapping P src_addr dest_addr bytes optype codeptr var_name st
         = Fatal (NotInvolved StageFrom (left_end (target dest_addr bytes))
                              (right_end (target dest_addr bytes))) st1
         /\ shadow st1 = shadow mid))
  /\ (forall n,
        IntervalTree.find (t_to_h mid) (target dest_addr bytes) = Some n ->
        exists st',
          AnnotateMapping P src_addr dest_addr bytes optype codeptr var_name st
          = Ok st'
          /\ (has_flag optype ompt_device_mem_flag_to = true ->
              forall x, src_addr <= x < src_addr + bytes ->
                        marked Device (shadow st') (x / kShadowCell P))
          /\ (has_flag optype ompt_device_mem_flag_from = true ->
              forall x, src_addr <= x < src_addr + bytes ->
                        marked Host (shadow st') (x / kShadowCell P))).
Proof.
  intros He Hk Hmid. split.
  - intros Hfind. split.
    + intros Ht. rewrite AnnotateMapping_enabled, Hmid by done. simpl.
      destruct (after_associate_miss P src_addr dest_addr bytes optype codeptr
                  var_name mid Hfind) as (st1 & -> & _ & _ & Hs).
      { by rewrite Ht. }
      rewrite Ht. eauto.
    + intros Ht Hf. rewrite AnnotateMapping_enabled, Hmid by done. simpl.
      destruct (after_associate_miss P src_addr dest_addr bytes optype codeptr
                  var_name mid Hfind) as (st1 & -> & _ & _ & Hs).
      { by rewrite Ht, Hf. }
      rewrite Ht, Hf. eauto.
  - intros n Hfind. rewrite AnnotateMapping_enabled, Hmid by done. simpl.
    destruct (after_associate_hit P src_addr dest_addr bytes optype codeptr
                var_name mid n Hfind) as (st' & -> & _ & _ & Hs).
    exists st'. split; [done|]. rewrite Hs. split.
    + intros Ht x Hx. apply transfers_to_marks; [done|].
      by apply cells_of_covers.
    + intros Hf x Hx. apply transfers_from_marks; [done|].
      by apply cells_of_covers.
Qed.

Lemma after_associate_Ok
    (P : Platform) (src_addr dest_addr bytes optype codeptr : Z)
    (var_name : option string) (mid st' : State) :
  after_associate P src_addr dest_addr bytes optype codeptr var_name mid
  = Ok st' ->
  h_to_t st' = h_to_t mid
  /\ t_to_h st' =
     (if has_flag optype ompt_device_mem_flag_disassociate
      then IntervalTree.remove (t_to_h mid) (target dest_addr bytes)
      else t_to_h mid)
  /\ shadow st' = transfers (kShadowCell P) optype src_addr bytes (shadow mid).
Proof.
  intros H.
  destruct (IntervalTree.find (t_to_h mid) (target dest_addr bytes))
    as [n|] eqn:Hfind.
  - destruct (after_associate_hit P src_addr dest_addr bytes optype codeptr
                var_name mid n Hfind) as (st'' & Heq & Hrest).
    rewrite Heq in H. by injection H as <-.
  - destruct (has_flag optype ompt_device_mem_flag_to
              || has_flag optype ompt_device_mem_flag_from
              || has_flag optype ompt_device_mem_flag_disassociate) eqn:Hany.
    + destruct (after_associate_miss P src_addr dest_addr bytes optype codeptr
                  var_name mid Hfind Hany) as (st1 & Heq & _).
      rewrite Heq in H. discriminate.
    + apply orb_false_elim in Hany as [[Ht Hf]%orb_false_elim Hd].
      revert H.
      unfold after_associate, on_to, on_from, on_transfer, on_disassociate,
        transfers.
      rewrite Ht, Hf, Hd. simpl. rewrite on_release_Ok. by intros [= <-].
Qed.

Lemma AnnotateMapping_Ok
    (P : Platform) (src_addr dest_addr bytes optype codeptr : Z)
    (var_name : option string) (st st' : State) :
  enable_annotations P = true ->
  AnnotateMapping P src_addr dest_addr bytes optype codeptr var_name st
  = Ok st' ->
  exists mid,
    through_associate P src_addr dest_addr bytes optype var_name st = Ok mid
    /\ after_associate P src_addr dest_addr bytes optype codeptr var_name mid
       = Ok st'.
Proof.
  intros He. rewrite AnnotateMapping_enabled by done. apply bind_Ok.
Qed.

Lemma find_snoc_fresh (tr : IntervalTree.t) (i : Interval) (m : MapInfo) :
  IntervalTree.conflict tr i = false ->
  overlaps i i = true ->
  IntervalTree.find (tr ++ [ {| interval := i; info := m |} ]) i
  = Some {| interval := i; info := m |}.
Proof.
  unfold IntervalTree.conflict, IntervalTree.find.
  induction tr as [|n tr IH]; simpl; intros Hc Hi.
  - by rewrite Hi.
  - apply orb_false_elim in Hc as [-> Hc]. by apply IH.
Qed.

(** An [associate] event on application memory whose device interval is
    non-empty and free on the device-to-host side runs to completion,
    whatever its other flags. *)
Lemma associate_completes
    (P : Platform) (src_addr dest_addr bytes optype codeptr : Z)
    (var_name : option string) (st : State) :
  enable_annotations P = true ->
  (IsAppMem P src_addr
   && IsAppMem P (uptr (uptr (src_addr + bytes) - 1))) = true ->
  has_flag optype ompt_device_mem_flag_associate = true ->
  IntervalTree.conflict (t_to_h st) (target dest_addr bytes) = false ->
  dest_addr < uptr (dest_addr + bytes) ->
  exists st',
    AnnotateMapping P src_addr dest_addr bytes optype codeptr var_name st
    = Ok st'.
Proof.
  intros He Happ Ha Hc Hne.
  rewrite AnnotateMapping_enabled by done.
  rewrite through_associate_unfold by done.
  rewrite on_associate_fresh by done. simpl.
  match goal with |- context [after_associate _ _ _ _ _ _ _ ?mid] =>
    destruct (after_associate_hit P src_addr dest_addr bytes optype codeptr
                var_name mid
                {| interval := target dest_addr bytes;
                   info := mh src_addr bytes var_name |})
      as (st' & Hst' & _)
  end.
  - destruct (has_flag optype ompt_device_mem_flag_to); simpl;
      (apply find_snoc_fresh; [done|]);
      unfold overlaps; simpl; apply Z.ltb_lt; lia.
  - eauto.
Qed.

(** The record an [associate] has just stored on the device-to-host side
    is the one covering every address of the device interval. *)
Lemma find_point_snoc (tr : IntervalTree.t) (i : Interval) (m : MapInfo)
    (a : Z) :
  IntervalTree.conflict tr i = false ->
  left_end i <= a < right_end i ->
  IntervalTree.find (tr ++ [ {| interval := i; info := m |} ])
                    {| left_end := a; right_end := a + 1 |}
  = Some {| interval := i; info := m |}.
Proof.
  unfold IntervalTree.conflict, IntervalTree.find.
  induction tr as [|n tr IH]; simpl; intros Hc Ha.
  - replace (overlaps i {| left_end := a; right_end := a + 1 |}) with true;
      [done|].
    symmetry. unfold overlaps. simpl. apply Z.ltb_lt. lia.
  - apply orb_false_elim in Hc as [Hn Hc].
    replace (overlaps (interval n) {| left_end := a; right_end := a + 1 |})
      with false; [by apply IH|].
    symmetry. unfold overlaps in *. simpl.
    apply Z.ltb_ge. apply Z.ltb_ge in Hn. lia.
Qed.

(** C1.  An event with the [associate] flag and without the [to] flag
    that completes leaves every cell of the associated range tracked and
    not device-valid (the hook files the cells of a mapping under its
    host range, [host.left_end]).  While the mapping is registered (the
    event does not disassociate it again), a device-side [check_access]
    anywhere inside the associated device interval then reports one
    inconsistency per accessed cell, at the device address accessed, and
    at least one.  After a later event with the [to] flag has completed,
    a device-side [check_access] whose cells that event covers reports
    nothing; in particular so does any access inside the device range of
    a [to] event for the same mapping. *)
Theorem associate_without_to_invalidates
    (P : Platform) (src_addr dest_addr bytes optype codeptr : Z)
    (var_name : option string) (st st' : State) :
  enable_annotations P = true ->
  0 < kShadowCell P ->
  has_flag optype ompt_device_mem_flag_associate = true ->
  has_flag optype ompt_device_mem_flag_to = false ->
  AnnotateMapping P src_addr dest_addr bytes optype codeptr var_name st
  = Ok st' ->
  (forall x, src_addr <= x < src_addr + bytes ->
             unmarked Device (shadow st') (x / kShadowCell P))
  /\ (has_flag optype ompt_device_mem_flag_disassociate = false ->
      0 <= dest_addr -> dest_addr + bytes < 2 ^ 64 ->
      forall addr sz,
        dest_addr <= addr -> 0 < sz -> addr + sz <= dest_addr + bytes ->
        shadow_address (t_to_h st') Device addr
        = Some (src_addr + (addr - dest_addr))
        /\ check_access (kShadowCell P) Device (t_to_h st') (shadow st')
                        addr sz
           = List.map (fun _ => {| kind := Inconsistency; address := addr;
                                   access_size := sz |})
                      (cells_of (kShadowCell P)
                                (src_addr + (addr - dest_addr)) sz)
        /\ check_access (kShadowCell P) Device (t_to_h st') (shadow st')
                        addr sz <> [])
  /\ (forall src2 dest2 bytes2 optype2 codeptr2 name2 st2,
        has_flag optype2 ompt_device_mem_flag_to = true ->
        AnnotateMapping P src2 dest2 bytes2 optype2 codeptr2 name2 st'
        = Ok st2 ->
        (forall addr sz a,
           shadow_address (t_to_h st2) Device addr = Some a ->
           src2 <= a -> a + sz <= src2 + bytes2 ->
           check_access (kShadowCell P) Device (t_to_h st2) (shadow st2)
                        addr sz = [])
        /\ (has_flag optype ompt_device_mem_flag_disassociate = false ->
            has_flag optype2 ompt_device_mem_flag_associate = false ->
            has_flag optype2 ompt_device_mem_flag_disassociate = false ->
            0 <= dest_addr -> dest_addr + bytes < 2 ^ 64 ->
            src2 - src_addr = dest2 - dest_addr ->
            forall addr sz,
              dest_addr <= addr < dest_addr + bytes ->
              dest2 <= addr -> addr + sz <= dest2 + bytes2 ->
              check_access (kShadowCell P) Device (t_to_h st2) (shadow st2)
                           addr sz = [])).
Proof.
  intros He Hk Ha Ht H.
  apply AnnotateMapping_Ok in H as (mid & Hmid & Hafter); [|done].
  apply after_associate_Ok in Hafter as (_ & Htr & Hs).
  pose proof (through_associate_Ok _ _ _ _ _ _ _ _ Hmid) as Hm.
  rewrite Ha, Ht in Hm. destruct Hm as (Hfree & _ & Hmidtr & Hreset).
  assert (forall c, c ∈ cells_of (kShadowCell P) src_addr bytes ->
                    unmarked Device (shadow st') c) as Hcells.
  { intros c Hc. rewrite Hs, Hreset.
    apply transfers_keep_unmarked; [done|].
    by apply unmarked_update_set. }
  assert (has_flag optype ompt_device_mem_flag_disassociate = false ->
          0 <= dest_addr -> dest_addr + bytes < 2 ^ 64 ->
          forall addr, dest_addr <= addr < dest_addr + bytes ->
            shadow_address (t_to_h st') Device addr
            = Some (src_addr + (addr - dest_addr))) as Hwhere.
  { intros Hd H0 Hend addr Haddr. unfold shadow_address.
    rewrite Htr, Hd, Hmidtr.
    rewrite find_point_snoc; [done|done|].
    unfold target, uptr. simpl. rewrite Z.mod_small by lia. lia. }
  split; [|split].
  - intros x Hx. by apply Hcells, cells_of_covers.
  - intros Hd H0 Hend addr sz Hlo Hsz Hhi.
    assert (shadow_address (t_to_h st') Device addr
            = Some (src_addr + (addr - dest_addr))) as Hsa
      by (apply Hwhere; [done|done|done|lia]).
    assert (check_access (kShadowCell P) Device (t_to_h st') (shadow st')
                         addr sz
            = List.map (fun _ => {| kind := Inconsistency; address := addr;
                                    access_size := sz |})
                       (cells_of (kShadowCell P)
                                 (src_addr + (addr - dest_addr)) sz)) as Heq.
    { apply check_access_unmarked; [done|].
      intros c Hc. apply Hcells.
      eapply cells_of_subrange; [done| | |exact Hc]; lia. }
    split; [done|]. split; [done|].
    rewrite Heq.
    assert ((src_addr + (addr - dest_addr)) / kShadowCell P
            ∈ cells_of (kShadowCell P) (src_addr + (addr - dest_addr)) sz)
      as Hin by (apply cells_of_covers; lia).
    destruct (cells_of (kShadowCell P) (src_addr + (addr - dest_addr)) sz);
      [by apply elem_of_nil in Hin|done].
  - intros src2 dest2 bytes2 optype2 codeptr2 name2 st2 Ht2 H2.
    apply AnnotateMapping_Ok in H2 as (mid2 & Hmid2 & Hafter2); [|done].
    apply after_associate_Ok in Hafter2 as (_ & Htr2 & Hs2).
    assert (forall addr sz a,
              shadow_address (t_to_h st2) Device addr = Some a ->
              src2 <= a -> a + sz <= src2 + bytes2 ->
              check_access (kShadowCell P) Device (t_to_h st2) (shadow st2)
                           addr sz = []) as Hnone.
    { intros addr sz a Hsa Hlo Hhi.
      apply (check_access_marked _ _ _ _ _ _ a); [done|].
      intros c Hc. rewrite Hs2.
      apply transfers_to_marks; [done|]. eapply cells_of_subrange; eauto. }
    split; [done|].
    intros Hd Ha2 Hd2 H0 Hend Hoff addr sz Haddr Hlo Hhi.
    pose proof (through_associate_Ok _ _ _ _ _ _ _ _ Hmid2) as Hm2.
    rewrite Ha2 in Hm2. subst mid2.
    apply (Hnone addr sz (src_addr + (addr - dest_addr))); [|lia|lia].
    rewrite Htr2, Hd2. by apply Hwhere.
Qed.

Lemma on_associate_Fatal
    (P : Platform) (src_addr dest_addr bytes optype : Z)
    (var_name : option string) (st st1 : State) (d : Diagnostic) :
  on_associate P src_addr dest_addr bytes optype var_name st = Fatal d st1 ->
  d = AlreadyInvolved dest_addr.
Proof.
  destruct (has_flag optype ompt_device_mem_flag_associate) eqn:Hf.
  - destruct (IntervalTree.conflict (t_to_h st) (target dest_addr bytes))
      eqn:Hc.
    + rewrite on_associate_conflict by done. by intros [= <- _].
    + by rewrite on_associate_fresh by done.
  - by rewrite on_associate_skip by done.
Qed.

Lemma after_associate_Fatal
    (P : Platform) (src_addr dest_addr bytes optype codeptr : Z)
    (var_name : option string) (mid st1 : State) (d : Diagnostic) :
  after_associate P src_addr dest_addr bytes optype codeptr var_name mid
  = Fatal d st1 ->
  exists stage,
    d = NotInvolved stage (left_end (target dest_addr bytes))
                    (right_end (target dest_addr bytes)).
Proof.
  destruct (IntervalTree.find (t_to_h mid) (target dest_addr bytes))
    as [n|] eqn:Hfind.
  - destruct (after_associate_hit P src_addr dest_addr bytes optype codeptr
                var_name mid n Hfind) as (st' & -> & _). discriminate.
  - destruct (has_flag optype ompt_device_mem_flag_to
              || has_flag optype ompt_device_mem_flag_from
              || has_flag optype ompt_device_mem_flag_disassociate) eqn:Hany.
    + destruct (after_associate_miss P src_addr dest_addr bytes optype codeptr
                  var_name mid Hfind Hany) as (st2 & -> & _).
      intros [= <- _]. eauto.
    + apply orb_false_elim in Hany as [[Ht Hf]%orb_false_elim Hd].
      unfold after_associate, on_to, on_from, on_transfer, on_disassociate.
      rewrite Ht, Hf, Hd. simpl. by rewrite on_release_Ok.
Qed.

Lemma uptr_pred (a : Z) : uptr (uptr a - 1) = uptr (a - 1).
Proof. unfold uptr. apply Zminus_mod_idemp_l. Qed.

(** C9.  Before any flag is looked at, the hook asserts that the first
    and the last byte of the host interval are application memory: if
    either endpoint is not, the call dies with the "does not fall into
    app mem section" diagnostic whatever the flags, with the state
    untouched; and for a host interval (of at least one byte) that lies
    entirely in application memory the call never dies with that
    diagnostic. *)
Theorem app_mem_assertion
    (P : Platform) (src_addr dest_addr bytes optype codeptr : Z)
    (var_name : option string) (st : State) :
  enable_annotations P = true ->
  0 <= src_addr < 2 ^ 64 ->
  ((IsAppMem P src_addr = false
    \/ IsAppMem P (uptr (uptr (src_addr + bytes) - 1)) = false) ->
   AnnotateMapping P src_addr dest_addr bytes optype codeptr var_name st
   = Fatal (NotAppMem src_addr (uptr (src_addr + bytes))) st)
  /\ (0 < bytes ->
      (forall i, 0 <= i < bytes -> IsAppMem P (uptr (src_addr + i)) = true) ->
      check_app_mem P src_addr bytes st = Ok st
      /\ forall l r st1,
           AnnotateMapping P src_addr dest_addr bytes optype codeptr var_name st
           <> Fatal (NotAppMem l r) st1).
Proof.
  intros He Hsrc. split.
  - intros Hout.
    assert ((IsAppMem P src_addr
             && IsAppMem P (uptr (uptr (src_addr + bytes) - 1))) = false)
      as Hf by (destruct Hout as [-> | ->]; [done|apply andb_false_r]).
    unfold AnnotateMapping, through_from, through_associate, check_app_mem,
      ASSERT. rewrite He. simpl. by rewrite Hf.
  - intros Hb Hin.
    assert ((IsAppMem P src_addr
             && IsAppMem P (uptr (uptr (src_addr + bytes) - 1))) = true)
      as Hok.
    { apply andb_true_intro. split.
      - rewrite <- (Hin 0) by lia. f_equal. unfold uptr.
        rewrite Z.add_0_r. symmetry. by apply Z.mod_small.
      - rewrite uptr_pred. rewrite <- (Hin (bytes - 1)) by lia.
        f_equal. f_equal. lia. }
    split.
    + unfold check_app_mem, ASSERT. simpl. by rewrite Hok.
    + intros l r st1 H.
      rewrite AnnotateMapping_enabled in H by done.
      rewrite through_associate_unfold in H by done.
      destruct (on_associate P src_addr dest_addr bytes optype var_name st)
        as [mid|d mid] eqn:Hon; simpl in H.
      * apply after_associate_Fatal in H as [stage ?]. discriminate.
      * apply on_associate_Fatal in Hon. congruence.
Qed.

(** ** The empty branches *)

(** The hook looks at the [associate], [to], [from] and [disassociate]
    flags only: two flag words that agree on these give the same
    result and the same state. *)
Lemma bind_congr (o o' : Outcome) (f g : State -> Outcome) :
  o = o' -> (forall st, f st = g st) -> o >>= f = o' >>= g.
Proof. intros <- H. destruct o; simpl; [apply H|done]. Qed.

Lemma has_flag_ldiff (optype f g : Z) :
  Z.land f g = 0 -> has_flag (Z.ldiff optype g) f = has_flag optype f.
Proof.
  intros H. unfold has_flag. do 2 f_equal.
  apply Z.bits_inj'. intros n Hn.
  rewrite !Z.land_spec, Z.ldiff_spec.
  assert (Z.testbit (Z.land f g) n = false) as Hb
    by (rewrite H; apply Z.bits_0).
  rewrite Z.land_spec in Hb.
  by destruct (Z.testbit optype n), (Z.testbit f n), (Z.testbit g n).
Qed.

Lemma has_flag_ldiff_same (optype g : Z) :
  has_flag (Z.ldiff optype g) g = false.
Proof.
  unfold has_flag.
  replace (Z.land (Z.ldiff optype g) g) with 0; [done|].
  symmetry. apply Z.bits_inj'. intros n Hn.
  rewrite Z.land_spec, Z.ldiff_spec, Z.bits_0.
  by destruct (Z.testbit optype n), (Z.testbit g n).
Qed.

Lemma AnnotateMapping_flags
    (P : Platform) (src_addr dest_addr bytes optype optype' codeptr : Z)
    (var_name : option string) (st : State) :
  has_flag optype' ompt_device_mem_flag_associate
  = has_flag optype ompt_device_mem_flag_associate ->
  has_flag optype' ompt_device_mem_flag_to
  = has_flag optype ompt_device_mem_flag_to ->
  has_flag optype' ompt_device_mem_flag_from
  = has_flag optype ompt_device_mem_flag_from ->
  has_flag optype' ompt_device_mem_flag_disassociate
  = has_flag optype ompt_device_mem_flag_disassociate ->
  AnnotateMapping P src_addr dest_addr bytes optype' codeptr var_name st
  = AnnotateMapping P src_addr dest_addr bytes optype codeptr var_name st.
Proof.
  intros Ha Ht Hf Hd. unfold AnnotateMapping.
  destruct (enable_annotations P); simpl; [|done].
  unfold through_from, through_associate.
  repeat apply bind_congr; try done; intros st0.
  - by rewrite !on_alloc_Ok.
  - unfold on_associate. by rewrite Ha, Ht.
  - unfold on_to, on_transfer. by rewrite Ht.
  - unfold on_from, on_transfer. by rewrite Hf.
  - unfold on_disassociate. by rewrite Hd.
  - by rewrite !on_release_Ok.
Qed.

(** An event with none of the four flags the hook acts on changes
    nothing, and dies only at the entry assertion. *)
Lemma AnnotateMapping_idle
    (P : Platform) (src_addr dest_addr bytes optype codeptr : Z)
    (var_name : option string) (st : State) :
  has_flag optype ompt_device_mem_flag_associate = false ->
  has_flag optype ompt_device_mem_flag_to = false ->
  has_flag optype ompt_device_mem_flag_from = false ->
  has_flag optype ompt_device_mem_flag_disassociate = false ->
  state_of (AnnotateMapping P src_addr dest_addr bytes optype codeptr
              var_name st) = st
  /\ (AnnotateMapping P src_addr dest_addr bytes optype codeptr var_name st
      = Ok st
      <-> enable_annotations P = false
          \/ (IsAppMem P src_addr
              && IsAppMem P (uptr (uptr (src_addr + bytes) - 1))) = true).
Proof.
  intros Ha Ht Hf Hd.
  unfold AnnotateMapping, through_from, through_associate, check_app_mem,
    ASSERT, on_associate, on_to, on_from, on_transfer, on_disassociate.
  simpl. rewrite Ha, Ht, Hf, Hd.
  destruct (enable_annotations P); simpl; [|split; [done|by split; [left|]]].
  destruct (IsAppMem P src_addr
            && IsAppMem P (uptr (uptr (src_addr + bytes) - 1))); simpl.
  - rewrite !on_alloc_Ok. simpl. rewrite !on_release_Ok.
    split; [done|]. split; [by right|done].
  - split; [done|]. split; [done|]. by intros [?|?].
Qed.

(** C7, as stated, fails on the first entry into a mapped region: when
    the [alloc] and [associate] steps of an [alloc|associate|to] event
    are done, no shadow cell exists at all; after the event the only
    cell is the one the [to] branch made, filed under the host range
    and [DeviceOnly], while nothing is filed under the device interval.
    On re-entry after [release|disassociate] the [alloc] step finds that
    cell [DeviceOnly] and leaves it so, not [Uninitialized]. *)
Lemma alloc_reserves_no_cell :
  has_flag (c_optype enter_data) ompt_device_mem_flag_alloc = true
  /\ (exists mid,
        through_associate linux_x86_64 (c_src enter_data) (c_dest enter_data)
          (c_bytes enter_data) (c_optype enter_data) (c_name enter_data)
          initial_state = Ok mid
        /\ shadow mid = ∅)
  /\ (exists st1,
        call linux_x86_64 enter_data initial_state = Ok st1
        /\ shadow st1 !! (scenario_device / kShadowCell linux_x86_64) = None
        /\ cell_state <$>
             (shadow st1 !! (scenario_host / kShadowCell linux_x86_64))
           = Some DeviceOnly)
  /\ (exists st2 mid2,
        run linux_x86_64 [enter_data; exit_data] initial_state = Ok st2
        /\ through_associate linux_x86_64 (c_src enter_data)
             (c_dest enter_data) (c_bytes enter_data) (c_optype enter_data)
             (c_name enter_data) st2 = Ok mid2
        /\ cell_state <$>
             (shadow mid2 !! (scenario_host / kShadowCell linux_x86_64))
           = Some DeviceOnly).
Proof.
  split; [reflexivity|]. split; [|split].
  - eexists. split; [vm_compute; reflexivity|]. vm_compute. reflexivity.
  - eexists. split; [vm_compute; reflexivity|].
    split; vm_compute; reflexivity.
  - eexists _, _. split; [vm_compute; reflexivity|].
    split; vm_compute; reflexivity.
Qed.

(** C7, amended.  The [alloc] flag is tested first, right after the
    entry assertion, but its branch is empty: the branch returns the
    state it is given, and the event has the result and the final state
    of the same event without the [alloc] flag, so the flag reserves no
    shadow cell and resets none.  An event that carries no flag besides
    [alloc] (and [release]) leaves the state as it was; it returns
    exactly when annotations are disabled or the host range passes the
    entry assertion, and dies at that assertion otherwise. *)
Theorem alloc_branch_is_empty
    (P : Platform) (src_addr dest_addr bytes optype codeptr : Z)
    (var_name : option string) (st : State) :
  has_flag optype ompt_device_mem_flag_alloc = true ->
  on_alloc optype st = Ok st
  /\ has_flag (Z.ldiff optype ompt_device_mem_flag_alloc)
              ompt_device_mem_flag_alloc = false
  /\ AnnotateMapping P src_addr dest_addr bytes optype codeptr var_name st
     = AnnotateMapping P src_addr dest_addr bytes
         (Z.ldiff optype ompt_device_mem_flag_alloc) codeptr var_name st
  /\ (enable_annotations P = true ->
      AnnotateMapping P src_addr dest_addr bytes optype codeptr var_name st
      = check_app_mem P src_addr bytes st
        >>= on_associate P src_addr dest_addr bytes optype var_name
        >>= after_associate P src_addr dest_addr bytes optype codeptr
              var_name)
  /\ (has_flag optype ompt_device_mem_flag_associate = false ->
      has_flag optype ompt_device_mem_flag_to = false ->
      has_flag optype ompt_device_mem_flag_from = false ->
      has_flag optype ompt_device_mem_flag_disassociate = false ->
      state_of (AnnotateMapping P src_addr dest_addr bytes optype codeptr
                  var_name st) = st
      /\ (AnnotateMapping P src_addr dest_addr bytes optype codeptr
            var_name st = Ok st
          <-> enable_annotations P = false
              \/ (IsAppMem P src_addr
                  && IsAppMem P (uptr (uptr (src_addr + bytes) - 1)))
                 = true)).
Proof.
  intros Hal. split; [apply on_alloc_Ok|].
  split; [apply has_flag_ldiff_same|]. split; [|split].
  - symmetry. apply AnnotateMapping_flags; by apply has_flag_ldiff.
  - intros He. rewrite AnnotateMapping_enabled by done.
    unfold through_associate.
    destruct (check_app_mem P src_addr bytes st); simpl; [|done].
    by rewrite on_alloc_Ok.
  - apply AnnotateMapping_idle.
Qed.

(** C6, as stated, fails: after [alloc|associate|to] has marked the cell
    of the mapped range device-valid, the [release|disassociate] event
    completes and the cell is still there, still device-valid. *)
Lemma release_keeps_cells :
  exists st1 st2,
    call linux_x86_64 enter_data initial_state = Ok st1
    /\ call linux_x86_64 exit_data st1 = Ok st2
    /\ has_flag (c_optype exit_data) ompt_device_mem_flag_release = true
    /\ shadow st2 !! (scenario_host / kShadowCell linux_x86_64)
       = Some {| device_has_value := true; host_has_value := false |}
    /\ shadow st2 = shadow st1.
Proof.
  eexists _, _. split; [vm_compute; reflexivity|].
  split; [vm_compute; reflexivity|]. repeat split; vm_compute; reflexivity.
Qed.

(** C6, amended.  The [release] branch is empty (its body is commented
    out): it returns the state it is given, and the event has the result
    and the final state of the same event without the [release] flag; an
    event that completes leaves the shadow as its [to] and [from]
    branches left it, so no shadow cell is freed or cleared.  An event
    that carries no flag besides [release] (and [alloc]) leaves the
    state as it was; it returns exactly when annotations are disabled or
    the host range passes the entry assertion, and dies at that
    assertion otherwise. *)
Theorem release_branch_is_empty
    (P : Platform) (src_addr dest_addr bytes optype codeptr : Z)
    (var_name : option string) (st : State) :
  has_flag optype ompt_device_mem_flag_release = true ->
  on_release optype st = Ok st
  /\ has_flag (Z.ldiff optype ompt_device_mem_flag_release)
              ompt_device_mem_flag_release = false
  /\ AnnotateMapping P src_addr dest_addr bytes optype codeptr var_name st
     = AnnotateMapping P src_addr dest_addr bytes
         (Z.ldiff optype ompt_device_mem_flag_release) codeptr var_name st
  /\ (enable_annotations P = true ->
      AnnotateMapping P src_addr dest_addr bytes optype codeptr var_name st
      = through_from P src_addr dest_addr bytes optype codeptr var_name st
        >>= on_disassociate dest_addr bytes optype)
  /\ (enable_annotations P = true ->
      forall st',
        AnnotateMapping P src_addr dest_addr bytes optype codeptr var_name st
        = Ok st' ->
        exists mid,
          through_associate P src_addr dest_addr bytes optype var_name st
          = Ok mid
          /\ shadow st'
             = transfers (kShadowCell P) optype src_addr bytes (shadow mid))
  /\ (has_flag optype ompt_device_mem_flag_associate = false ->
      has_flag optype ompt_device_mem_flag_to = false ->
      has_flag optype ompt_device_mem_flag_from = false ->
      has_flag optype ompt_device_mem_flag_disassociate = false ->
      state_of (AnnotateMapping P src_addr dest_addr bytes optype codeptr
                  var_name st) = st
      /\ (AnnotateMapping P src_addr dest_addr bytes optype codeptr
            var_name st = Ok st
          <-> enable_annotations P = false
              \/ (IsAppMem P src_addr
                  && IsAppMem P (uptr (uptr (src_addr + bytes) - 1)))
                 = true)).
Proof.
  intros Hr. split; [apply on_release_Ok|].
  split; [apply has_flag_ldiff_same|]. split; [|split; [|split]].
  - symmetry. apply AnnotateMapping_flags; by apply has_flag_ldiff.
  - intros He. unfold AnnotateMapping. rewrite He. simpl.
    destruct (through_from P src_addr dest_addr bytes optype codeptr
                var_name st >>= on_disassociate dest_addr bytes optype);
      simpl; [apply on_release_Ok|done].
  - intros He st' H.
    apply AnnotateMapping_Ok in H as (mid & Hmid & Ha); [|done].
    apply after_associate_Ok in Ha as (_ & _ & Hs). eauto.
  - apply AnnotateMapping_idle.
Qed.

(** ** Host-side associations over a sequence of events *)

Lemma disjoint_nodes_snoc (tr : IntervalTree.t) (m : Node) :
  disjoint_nodes tr ->
  (forall n, n ∈ tr -> overlaps (interval n) (interval m) = false) ->
  disjoint_nodes (tr ++ [m]).
Proof.
  induction tr as [|n tr IH]; simpl; intros Hd Hm.
  - by split; [constructor|].
  - destruct Hd as [Hn Hd]. split.
    + apply Forall_app. split; [done|].
      constructor; [|constructor]. apply Hm, list_elem_of_here.
    + apply IH; [done|]. intros n' Hn'. by apply Hm, list_elem_of_further.
Qed.

Lemma disjoint_nodes_removeAll (tr : IntervalTree.t) (i : Interval) :
  disjoint_nodes tr ->
  disjoint_nodes (IntervalTree.removeAllNodesWithinRange tr i).
Proof.
  unfold IntervalTree.removeAllNodesWithinRange.
  induction tr as [|n tr IH]; simpl; [done|]. intros [Hn Hd].
  destruct (negb (overlaps (interval n) i)); simpl; [|by apply IH].
  split; [|by apply IH].
  apply Forall_forall. intros m Hm%list_elem_of_In%filter_In.
  destruct Hm as [Hm _]. rewrite Forall_forall in Hn.
  by apply Hn, list_elem_of_In.
Qed.

Lemma last_associate_cons (x : Z) (c : MappingCall)
    (history : list MappingCall) :
  last_associate x (c :: history)
  = if has_flag (c_optype c) ompt_device_mem_flag_associate
       && (left_end (call_host c) <=? x) && (x <? right_end (call_host c))
    then Some c else last_associate x history.
Proof. reflexivity. Qed.

Lemma covers_bool (i : Interval) (x : Z) :
  (left_end i <=? x) && (x <? right_end i) = true <-> contains i x.
Proof. unfold contains. rewrite andb_true_iff, Z.leb_le, Z.ltb_lt. done. Qed.

Lemma call_preserves_current (P : Platform) (c : MappingCall)
    (history : list MappingCall) (st st' : State) :
  enable_annotations P = true ->
  registry_current history (h_to_t st) ->
  call P c st = Ok st' ->
  registry_current (c :: history) (h_to_t st')
  /\ (has_flag (c_optype c) ompt_device_mem_flag_associate = true ->
      h_to_t st' =
      IntervalTree.removeAllNodesWithinRange (h_to_t st) (call_host c)
        ++ [call_host_node c]).
Proof.
  intros He [Hd Hcur] H. unfold call in H.
  apply AnnotateMapping_Ok in H as (mid & Hmid & Ha); [|done].
  apply after_associate_Ok in Ha as (Hh & _ & _).
  pose proof (through_associate_Ok _ _ _ _ _ _ _ _ Hmid) as Hm.
  destruct (has_flag (c_optype c) ompt_device_mem_flag_associate) eqn:Hf.
  - destruct Hm as (_ & Hhm & _ & _). rewrite Hh, Hhm.
    split; [|done]. unfold host_side_after. split.
    + apply disjoint_nodes_snoc; [by apply disjoint_nodes_removeAll|].
      by intros n [_ Hn]%elem_of_removeAll.
    + intros n x [Hn|Hn]%elem_of_app Hx;
        rewrite last_associate_cons, Hf, andb_true_l.
      * apply elem_of_removeAll in Hn as [Hn Ho].
        assert ((left_end (call_host c) <=? x)
                && (x <? right_end (call_host c)) = false) as ->.
        { apply not_true_iff_false. intros Hc%covers_bool.
          eapply overlaps_false; eauto. }
        by apply Hcur.
      * apply list_elem_of_singleton in Hn as ->.
        apply covers_bool in Hx. unfold call_host, host in *.
        simpl in *. rewrite Hx. eauto.
  - subst mid. rewrite Hh. split; [|done]. split; [done|].
    intros n x Hn Hx. rewrite last_associate_cons, Hf. simpl.
    by apply Hcur.
Qed.

Lemma run_snoc (P : Platform) (cs : list MappingCall) (c : MappingCall)
    (st : State) :
  run P (cs ++ [c]) st = run P cs st >>= call P c.
Proof.
  revert st. induction cs as [|c0 cs IH]; intros st; simpl.
  - by destruct (call P c st).
  - destruct (call P c0 st); simpl; [apply IH|done].
Qed.

Lemma run_current (P : Platform) (cs history : list MappingCall)
    (st st' : State) :
  enable_annotations P = true ->
  registry_current history (h_to_t st) ->
  run P cs st = Ok st' ->
  registry_current (rev cs ++ history) (h_to_t st').
Proof.
  intros He. revert history st.
  induction cs as [|c cs IH]; intros history st Hcur H; simpl in *.
  - by injection H as <-.
  - apply bind_Ok in H as (st1 & Hc & Hr).
    rewrite <- app_assoc. simpl. eapply IH; [|done].
    eapply call_preserves_current; eauto.
Qed.

(** C2.  After any sequence of events run from the empty registry, the
    host-to-device side holds, for any address, at most one record
    covering it, and that record is the one of the most recent
    [associate] event whose host interval covers the address: no two
    stored records overlap and no stale record survives.  Each
    [associate] event leaves the host side as the old one with every
    record overlapping the new host interval removed, and the new record
    inserted (which is there afterwards). *)
Theorem host_side_keeps_latest
    (P : Platform) (cs : list MappingCall) (st : State) :
  enable_annotations P = true ->
  run P cs initial_state = Ok st ->
  disjoint_nodes (h_to_t st)
  /\ (forall n x,
        n ∈ h_to_t st -> contains (interval n) x ->
        exists c, last_associate x (rev cs) = Some c /\ n = call_host_node c)
  /\ (forall n1 n2 x,
        n1 ∈ h_to_t st -> n2 ∈ h_to_t st ->
        contains (interval n1) x -> contains (interval n2) x -> n1 = n2)
  /\ (forall cs0 c,
        cs = cs0 ++ [c] ->
        has_flag (c_optype c) ompt_device_mem_flag_associate = true ->
        exists st0,
          run P cs0 initial_state = Ok st0
          /\ h_to_t st =
             IntervalTree.removeAllNodesWithinRange (h_to_t st0) (call_host c)
               ++ [call_host_node c]
          /\ call_host_node c ∈ h_to_t st).
Proof.
  intros He H.
  assert (registry_current [] (h_to_t initial_state)) as H0.
  { split; [done|]. by intros n x Hn%elem_of_nil. }
  pose proof (run_current P cs [] _ _ He H0 H) as [Hd Hcur].
  rewrite app_nil_r in Hcur.
  split; [done|]. split; [done|]. split.
  - intros n1 n2 x H1 H2 Hx1 Hx2.
    destruct (Hcur n1 x H1 Hx1) as (c1 & Hc1 & ->).
    destruct (Hcur n2 x H2 Hx2) as (c2 & Hc2 & ->). congruence.
  - intros cs0 c -> Hf. rewrite run_snoc in H.
    apply bind_Ok in H as (st0 & H0' & Hc). exists st0. split; [done|].
    assert (registry_current (rev cs0) (h_to_t st0)) as Hcur0.
    { pose proof (run_current P cs0 [] _ _ He H0 H0') as Hc0.
      by rewrite app_nil_r in Hc0. }
    destruct (call_preserves_current P c (rev cs0) st0 st He Hcur0 Hc)
      as [_ Heq].
    rewrite (Heq Hf). split; [done|].
    apply elem_of_app. right. apply list_elem_of_here.
Qed.

(* ===================================================================== *)
(** * Part IV: properties of the pass                                     *)
(* ===================================================================== *)






















Example outlined_example_instrumented :
  body (sanitizeFunction true ".omp_outlined" (fun b => b) outlined_example)
  = [ [ {| result := Some 1%nat;
           opcode := GetElementPtr [Argument 0; Constant 3] |};
        {| result := None;
           opcode := Store 32 (Constant 7) (Result 1) |};
        {| result := Some 2%nat;
           opcode := GetElementPtr [Argument 0; Constant 4] |};
        check_bound_call (Argument 0) (Result 2) 4;
        {| result := Some 3%nat; opcode := Load 32 (Result 2) |} ] ].
Proof. vm_compute. reflexivity. Qed.

Example other_function_untouched :
  sanitizeFunction true ".omp_outlined" (fun b => b)
    {| Name := "main"; Naked := false;
       DisableSanitizerInstrumentation := false;
       body := body outlined_example |}
  = {| Name := "main"; Naked := false;
       DisableSanitizerInstrumentation := false;
       body := body outlined_example |}.
Proof. vm_compute. reflexivity. Qed.

(* ===================================================================== *)
(** * Part V: the scenarios, run                                          *)
(* ===================================================================== *)

(** Scenario A: [alloc|associate] without [to], then a device-side access
    of the four bytes at the device address: one inconsistency.
    Scenario B: after the [to], none. *)
Lemma associate_without_to_invalidates_witness :
  call linux_x86_64 associate_only initial_state
  = Ok (state_of (call linux_x86_64 associate_only initial_state))
  /\ check_access 8 Device
       (t_to_h (state_of (call linux_x86_64 associate_only initial_state)))
       (shadow (state_of (call linux_x86_64 associate_only initial_state)))
       scenario_device 4
     = [ {| kind := Inconsistency; address := scenario_device;
            access_size := 4 |} ]
  /\ check_access 8 Device
       (t_to_h (state_of (run linux_x86_64 [associate_only; copy_to]
                              initial_state)))
       (shadow (state_of (run linux_x86_64 [associate_only; copy_to]
                              initial_state)))
       scenario_device 4
     = [].
Proof.
  split; [vm_compute; reflexivity|].
  pose proof (associate_without_to_invalidates linux_x86_64
                scenario_host scenario_device 4 0x14 0 (Some "a")
                initial_state
                (state_of (call linux_x86_64 associate_only initial_state))
                eq_refl eq_refl eq_refl eq_refl eq_refl)
    as (_ & HA & HB).
  split.
  - refine (proj1 (proj2 (HA eq_refl _ _ scenario_device 4 _ _ _)));
      unfold scenario_device; lia.
  - refine (proj2 (HB scenario_host scenario_device 4 0x01 0 (Some "a")
                      (state_of (run linux_x86_64 [associate_only; copy_to]
                                     initial_state))
                      eq_refl eq_refl)
                  eq_refl eq_refl eq_refl _ _ eq_refl scenario_device 4 _ _ _);
      unfold scenario_device; lia.
Defined.

(** Two associations with overlapping host intervals: the second one is
    the only record left on the host side. *)
Lemma host_side_keeps_latest_witness :
  run linux_x86_64 [associate_only; associate_again] initial_state
  = Ok (state_of (run linux_x86_64 [associate_only; associate_again]
                      initial_state))
  /\ h_to_t (state_of (run linux_x86_64 [associate_only; associate_again]
                           initial_state))
     = IntervalTree.removeAllNodesWithinRange
         (h_to_t (state_of (call linux_x86_64 associate_only initial_state)))
         (call_host associate_again)
       ++ [call_host_node associate_again].
Proof.
  split; [vm_compute; reflexivity|].
  destruct (proj2 (proj2 (proj2
    (host_side_keeps_latest linux_x86_64 [associate_only; associate_again]
       (state_of (run linux_x86_64 [associate_only; associate_again]
                      initial_state))
       eq_refl eq_refl)))
    [associate_only] associate_again eq_refl eq_refl)
    as (st0 & Hrun & Heq & _).
  injection Hrun as <-. exact Heq.
Defined.

(** A second association of a device range that is still registered. *)
Lemma device_conflict_is_fatal_witness :
  exists st1,
    AnnotateMapping linux_x86_64 0x2000 (scenario_device + 2) 4 0x10 0 None
      (state_of (call linux_x86_64 enter_data initial_state))
    = Fatal (AlreadyInvolved (scenario_device + 2)) st1
    /\ t_to_h st1
       = t_to_h (state_of (call linux_x86_64 enter_data initial_state)).
Proof.
  destruct (device_conflict_is_fatal linux_x86_64 0x2000
              (scenario_device + 2) 4 0x10 0 None
              (state_of (call linux_x86_64 enter_data initial_state))
              {| interval := target scenario_device 4;
                 info := mh scenario_host 4 (Some "a") |}
              eq_refl eq_refl eq_refl
              (list_elem_of_here _ _) eq_refl)
    as (st1 & H1 & H2 & _).
  exists st1. split; [exact H1|exact H2].
Defined.

(** Scenario C, and the matching removal: [release|disassociate] on the
    mapped range removes its record. *)
Lemma disassociate_lookup_witness :
  exists st' l1 l2,
    call linux_x86_64 exit_data
         (state_of (call linux_x86_64 enter_data initial_state))
    = Ok st'
    /\ t_to_h (state_of (call linux_x86_64 enter_data initial_state))
       = l1 ++ {| interval := target scenario_device 4;
                  info := mh scenario_host 4 (Some "a") |} :: l2
    /\ t_to_h st' = l1 ++ l2
    /\ h_to_t st'
       = h_to_t (state_of (call linux_x86_64 enter_data initial_state)).
Proof.
  exact (proj2 (proj2
    (disassociate_lookup linux_x86_64 scenario_host scenario_device 4 0x28 0
       (Some "a")
       (state_of (call linux_x86_64 enter_data initial_state))
       (state_of (call linux_x86_64 enter_data initial_state))
       eq_refl eq_refl eq_refl))
    {| interval := target scenario_device 4;
       info := mh scenario_host 4 (Some "a") |} eq_refl).
Defined.

(** Scenario B: a [to] on the associated range marks its cell. *)
Lemma transfer_lookup_and_marks_witness :
  exists st',
    call linux_x86_64 copy_to
         (state_of (call linux_x86_64 associate_only initial_state))
    = Ok st'
    /\ marked Device (shadow st') (scenario_host / 8).
Proof.
  destruct (proj2
    (transfer_lookup_and_marks linux_x86_64 scenario_host scenario_device 4
       0x01 0 (Some "a")
       (state_of (call linux_x86_64 associate_only initial_state))
       (state_of (call linux_x86_64 associate_only initial_state))
       eq_refl eq_refl eq_refl)
    {| interval := target scenario_device 4;
       info := mh scenario_host 4 (Some "a") |} eq_refl)
    as (st' & H & Hto & _).
  exists st'. split; [exact H|].
  apply (Hto eq_refl scenario_host). unfold scenario_host. lia.
Defined.

(** The four bytes at [scenario_host] are application memory. *)
Lemma app_mem_assertion_witness :
  check_app_mem linux_x86_64 scenario_host 4 initial_state = Ok initial_state.
Proof.
  refine (proj1 (proj2
    (app_mem_assertion linux_x86_64 scenario_host scenario_device 4 0x15 0
       None initial_state eq_refl _) _ _)).
  - unfold scenario_host. lia.
  - reflexivity.
  - intros i Hi.
    assert (i = 0 \/ i = 1 \/ i = 2 \/ i = 3) as Hcases by lia.
    destruct Hcases as [Hi0|[Hi0|[Hi0|Hi0]]]; rewrite Hi0; reflexivity.
Defined.

Lemma alloc_branch_is_empty_witness :
  call linux_x86_64 enter_data initial_state
  = AnnotateMapping linux_x86_64 scenario_host scenario_device 4 0x11 0
      (Some "a") initial_state
  /\ AnnotateMapping linux_x86_64 scenario_host scenario_device 4 0x04 0 None
       (state_of (call linux_x86_64 enter_data initial_state))
     = Ok (state_of (call linux_x86_64 enter_data initial_state))
  /\ AnnotateMapping linux_x86_64 0 scenario_device 4 0x04 0 None
       initial_state
     = Fatal (NotAppMem 0 4) initial_state.
Proof.
  split; [|split].
  - exact (proj1 (proj2 (proj2
      (alloc_branch_is_empty linux_x86_64 scenario_host scenario_device 4
         0x15 0 (Some "a") initial_state eq_refl)))).
  - pose proof
      (alloc_branch_is_empty linux_x86_64 scenario_host scenario_device 4
         0x04 0 None
         (state_of (call linux_x86_64 enter_data initial_state)) eq_refl)
      as (_ & _ & _ & _ & H).
    destruct (H eq_refl eq_refl eq_refl eq_refl) as [_ [_ Hback]].
    apply Hback. right. reflexivity.
  - reflexivity.
Defined.

Lemma release_branch_is_empty_witness :
  call linux_x86_64 exit_data
    (state_of (call linux_x86_64 enter_data initial_state))
  = AnnotateMapping linux_x86_64 scenario_host scenario_device 4 0x20 0
      (Some "a") (state_of (call linux_x86_64 enter_data initial_state))
  /\ AnnotateMapping linux_x86_64 scenario_host scenario_device 4 0x08 0 None
       (state_of (call linux_x86_64 enter_data initial_state))
     = Ok (state_of (call linux_x86_64 enter_data initial_state))
  /\ AnnotateMapping linux_x86_64 0 scenario_device 4 0x0c 0 None
       initial_state
     = Fatal (NotAppMem 0 4) initial_state.
Proof.
  split; [|split].
  - exact (proj1 (proj2 (proj2
      (release_branch_is_empty linux_x86_64 scenario_host scenario_device 4
         0x28 0 (Some "a")
         (state_of (call linux_x86_64 enter_data initial_state)) eq_refl)))).
  - pose proof
      (release_branch_is_empty linux_x86_64 scenario_host scenario_device 4
         0x08 0 None
         (state_of (call linux_x86_64 enter_data initial_state)) eq_refl)
      as (_ & _ & _ & _ & _ & H).
    destruct (H eq_refl eq_refl eq_refl eq_refl) as [_ [_ Hback]].
    apply Hback. right. reflexivity.
  - reflexivity.
Defined.


(** The boundary of a mapped range of four bytes. *)
Lemma half_open_intervals_and_bound_witness :
  check_bound
    (t_to_h (state_of (call linux_x86_64 enter_data initial_state)))
    scenario_device (scenario_device + 4) 4
  = [ {| kind := OutOfBound; address := scenario_device + 4;
         access_size := 4 |} ]
  /\ check_bound
       (t_to_h (state_of (call linux_x86_64 enter_data initial_state)))
       scenario_device (scenario_device + 4 - 1) 1
     = [].
Proof.
  exact (proj2 (proj2 (proj2
    (half_open_intervals_and_bound
       (host scenario_host 4) (target scenario_device 4) [] 0 0
       (t_to_h (state_of (call linux_x86_64 enter_data initial_state)))
       {| interval := target scenario_device 4;
          info := mh scenario_host 4 (Some "a") |}
       scenario_device 4 eq_refl eq_refl eq_refl)))).
Defined.

(* ===================================================================== *)
(** * Part VI: the benign-race list                                       *)
(* ===================================================================== *)

Lemma uptr_small (x : Z) : 0 <= x < 2 ^ 64 -> uptr x = x.
Proof. intros H. unfold uptr. by apply Z.mod_small. Qed.

Lemma FindRace_list_find (ring : list BenignRace) (addr sz : Z) :
  FindRace (race <$> ring) addr sz
  = (fun p => race p.2)
      <$> list_find (fun b => race_hit addr sz b = true) ring.
Proof.
  induction ring as [|b ring IH]; [done|].
  cbn [fmap list_fmap FindRace list_find]. fold (race_hit addr sz b).
  destruct (race_hit addr sz b) eqn:Hb.
  - by rewrite decide_True.
  - rewrite decide_False by done. rewrite IH.
    by destruct (list_find _ ring) as [[i x]|].
Qed.

Lemma FindRace_hit (ring : list BenignRace) (addr sz : Z) (b : BenignRace) :
  b ∈ ring -> race_hit addr sz b = true ->
  is_Some (FindRace (race <$> ring) addr sz).
Proof.
  intros Hb Hhit. rewrite FindRace_list_find.
  destruct (list_find (fun b => race_hit addr sz b = true) ring)
    as [[i x]|] eqn:Hf; [by eexists|].
  rewrite list_find_None, Forall_forall in Hf. by destruct (Hf b Hb).
Qed.

Lemma FindRace_miss (ring : list BenignRace) (addr sz : Z) :
  (forall b, b ∈ ring -> race_hit addr sz b = false) ->
  FindRace (race <$> ring) addr sz = None.
Proof.
  intros H. rewrite FindRace_list_find.
  destruct (list_find (fun b => race_hit addr sz b = true) ring)
    as [[i x]|] eqn:Hf; [|done].
  apply list_find_Some in Hf as (Hi & Hx & _).
  rewrite H in Hx; [done|]. by eapply list_elem_of_lookup_2.
Qed.

Lemma CheckContains_fst (ring : list BenignRace) (addr sz : Z) :
  (CheckContains ring addr sz).1
  = bool_decide (is_Some (FindRace (race <$> ring) addr sz)).
Proof.
  unfold CheckContains.
  destruct (FindRace (race <$> ring) addr sz) as [r|] eqn:Hf.
  - rewrite bool_decide_eq_true_2 by (by eexists).
    by destruct (list_find _ ring) as [[i x]|].
  - rewrite bool_decide_eq_false_2; [done|]. by intros [? ?].
Qed.

Lemma add_existing_Some (ring ring' : list BenignRace) (addr sz : Z) :
  add_existing ring addr sz = Some ring' ->
  range_key <$> ring' = range_key <$> ring
  /\ length ring' = length ring
  /\ (exists b, b ∈ ring' /\ range_key b = (addr, sz))
  /\ total_addcount ring' - total_addcount ring
     = (fun c => uptr (c + 1) - c)
         (default 0 (Race.addcount <$>
                       (race <$> List.find (same_range addr sz) ring))).
Proof.
  revert ring'. induction ring as [|b ring IH]; intros ring'; simpl; [done|].
  destruct (same_range addr sz b) eqn:Hb.
  - intros [= <-]. simpl. repeat split; [|lia].
    exists (bump_addcount b). split; [apply list_elem_of_here|].
    unfold same_range in Hb. apply andb_true_iff in Hb as [H1 H2].
    apply Z.eqb_eq in H1, H2. unfold range_key. simpl. congruence.
  - destruct (add_existing ring addr sz) as [r|] eqn:Hr; [|done].
    intros [= <-]. destruct (IH r eq_refl) as (Hk & Hl & (x & Hx & Hxk) & Ht).
    cbn [fmap list_fmap length total_addcount foldr].
    repeat split; [by f_equal|by f_equal| |].
    + exists x. split; [by apply list_elem_of_further|done].
    + fold (total_addcount r). fold (total_addcount ring). lia.
Qed.

Lemma add_existing_None (ring : list BenignRace) (addr sz : Z) :
  add_existing ring addr sz = None ->
  (addr, sz) ∉ range_key <$> ring.
Proof.
  induction ring as [|b ring IH]; simpl; [intros _; apply not_elem_of_nil|].
  destruct (same_range addr sz b) eqn:Hb; [done|].
  destruct (add_existing ring addr sz); [done|]. intros _.
  apply not_elem_of_cons. split; [|by apply IH].
  unfold range_key. intros [= H1 H2]. unfold same_range in Hb.
  rewrite <- H1, <- H2, !Z.eqb_refl in Hb. done.
Qed.

Lemma AddExpectRace_has_range (ring : list BenignRace) (f : string)
    (l addr sz : Z) (d : option string) :
  exists b, b ∈ AddExpectRace ring f l addr sz d /\ range_key b = (addr, sz).
Proof.
  unfold AddExpectRace.
  destruct (add_existing ring addr sz) as [ring'|] eqn:Ha.
  - by destruct (add_existing_Some _ _ _ _ Ha) as (_ & _ & Hb & _).
  - exists (new_race f l addr sz d). split; [apply list_elem_of_here|done].
Qed.

Lemma race_hit_overlap (b : BenignRace) (mem sz a s : Z) :
  range_key b = (mem, sz) ->
  0 <= mem -> 0 <= sz -> mem + sz < 2 ^ 64 ->
  0 <= a -> 0 <= s -> a + s < 2 ^ 64 ->
  race_hit a s b = (Z.max mem a <? Z.min (mem + sz) (a + s)).
Proof.
  unfold range_key, race_hit. intros [= -> ->] Hm Hsz Hms Ha Hs Has.
  by rewrite !uptr_small by lia.
Qed.

(** X1.  A range registered with [AnnotateBenignRaceSized] is found
    again: with annotations enabled, any later query that overlaps the
    registered range (both inside the address space) is an expected
    report; and when the range was not registered before, the entry that
    [FindRace] returns is the new one, which sits at the head of the
    ring. *)
Theorem benign_race_is_found
    (P : Platform) (ring : list BenignRace) (f : string)
    (l mem sz : Z) (d : option string) (a s : Z) :
  enable_annotations P = true ->
  0 <= mem -> 0 <= sz -> mem + sz < 2 ^ 64 ->
  0 <= a -> 0 <= s -> a + s < 2 ^ 64 ->
  Z.max mem a < Z.min (mem + sz) (a + s) ->
  (IsExpectedReport (AnnotateBenignRaceSized P ring f l mem sz d) a s).1
  = true
  /\ (add_existing ring mem sz = None ->
      FindRace (race <$> AnnotateBenignRaceSized P ring f l mem sz d) a s
      = Some (race (new_race f l mem sz d))).
Proof.
  intros He Hm Hsz Hms Ha Hs Has Hov.
  unfold AnnotateBenignRaceSized, BenignRaceImpl, IsExpectedReport.
  rewrite He. simpl. split.
  - rewrite CheckContains_fst. apply bool_decide_eq_true_2.
    destruct (AddExpectRace_has_range ring f l mem sz d) as (b & Hb & Hk).
    apply (FindRace_hit _ _ _ b Hb).
    rewrite (race_hit_overlap b mem sz a s) by done. by apply Z.ltb_lt.
  - intros Hnew. unfold AddExpectRace. rewrite Hnew.
    cbn [fmap list_fmap FindRace].
    pose proof (race_hit_overlap (new_race f l mem sz d) mem sz a s
                  eq_refl Hm Hsz Hms Ha Hs Has) as Hh.
    unfold race_hit in Hh. rewrite Hh.
    by rewrite (proj2 (Z.ltb_lt _ _) Hov).
Qed.

Lemma annotate_all_snoc (P : Platform) (calls : list BenignCall)
    (c : BenignCall) :
  annotate_all P (calls ++ [c])
  = AnnotateBenignRaceSized P (annotate_all P calls) (b_file c) (b_line c)
      (b_mem c) (b_size c) (b_desc c).
Proof. unfold annotate_all. by rewrite foldl_app. Qed.

Lemma AddExpectRace_NoDup (ring : list BenignRace) (f : string)
    (l addr sz : Z) (d : option string) :
  NoDup (range_key <$> ring) ->
  NoDup (range_key <$> AddExpectRace ring f l addr sz d).
Proof.
  intros Hnd. unfold AddExpectRace.
  destruct (add_existing ring addr sz) as [ring'|] eqn:Ha.
  - destruct (add_existing_Some _ _ _ _ Ha) as (-> & _). done.
  - cbn [fmap list_fmap]. constructor; [|done].
    by apply add_existing_None.
Qed.

(** X2.  The ring never holds two entries for the same address and size:
    whatever the sequence of [AnnotateBenignRaceSized] calls since
    [InitializeDynamicAnnotations], the (address, size) pairs of the
    entries are pairwise distinct, and the ring is never longer than the
    number of calls. *)
Theorem benign_ranges_are_distinct (P : Platform) (calls : list BenignCall) :
  NoDup (range_key <$> annotate_all P calls)
  /\ (length (annotate_all P calls) <= length calls)%nat.
Proof.
  induction calls as [|c calls IH] using rev_ind.
  - split; [constructor|done].
  - rewrite annotate_all_snoc, length_app. simpl.
    unfold AnnotateBenignRaceSized, BenignRaceImpl.
    destruct (enable_annotations P); simpl; [|split; [tauto|lia]].
    destruct IH as [Hnd Hlen]. split; [by apply AddExpectRace_NoDup|].
    unfold AddExpectRace.
    destruct (add_existing _ _ _) as [ring'|] eqn:Ha; simpl; [|lia].
    destruct (add_existing_Some _ _ _ _ Ha) as (_ & -> & _). lia.
Qed.

Lemma total_addcount_nonneg (ring : list BenignRace) :
  Forall (fun b => 1 <= Race.addcount (race b)) ring ->
  0 <= total_addcount ring.
Proof. induction 1; simpl; [done|]. fold (total_addcount l). lia. Qed.

Lemma add_existing_total (ring ring' : list BenignRace) (addr sz : Z) :
  add_existing ring addr sz = Some ring' ->
  Forall (fun b => 1 <= Race.addcount (race b)) ring ->
  total_addcount ring < 2 ^ 64 - 1 ->
  total_addcount ring' = total_addcount ring + 1
  /\ Forall (fun b => 1 <= Race.addcount (race b)) ring'.
Proof.
  revert ring'. induction ring as [|b ring IH]; intros ring'; simpl; [done|].
  fold (total_addcount ring). intros Ha Hall Htot.
  apply Forall_cons in Hall as [Hb Hall].
  pose proof (total_addcount_nonneg ring Hall) as Hnn.
  destruct (same_range addr sz b).
  - injection Ha as <-. simpl. fold (total_addcount ring).
    rewrite uptr_small by lia. split; [lia|].
    constructor; [simpl; rewrite uptr_small by lia; lia|done].
  - destruct (add_existing ring addr sz) as [r|] eqn:Hr; [|done].
    injection Ha as <-. destruct (IH r eq_refl Hall) as [Ht Hf]; [lia|].
    simpl. fold (total_addcount r). split; [lia|by constructor].
Qed.

(** X3.  With annotations enabled, the [addcount]s of the ring add up to
    the number of [AnnotateBenignRaceSized] calls made since
    [InitializeDynamicAnnotations] (as long as that number fits a
    machine word), and every entry has been added at least once. *)
Theorem addcounts_count_the_calls (P : Platform) (calls : list BenignCall) :
  enable_annotations P = true ->
  Z.of_nat (length calls) < 2 ^ 64 ->
  total_addcount (annotate_all P calls) = Z.of_nat (length calls)
  /\ Forall (fun b => 1 <= Race.addcount (race b)) (annotate_all P calls).
Proof.
  intros He. induction calls as [|c calls IH] using rev_ind; [done|].
  rewrite length_app. simpl. intros Hlen.
  destruct IH as [Ht Hall]; [lia|].
  rewrite annotate_all_snoc.
  unfold AnnotateBenignRaceSized, BenignRaceImpl, AddExpectRace.
  rewrite He. simpl.
  destruct (add_existing _ _ _) as [ring'|] eqn:Ha.
  - destruct (add_existing_total _ _ _ _ Ha Hall) as [Ht' Hall']; [lia|].
    split; [lia|done].
  - simpl. fold (total_addcount (annotate_all P calls)).
    split; [lia|]. constructor; [simpl; lia|done].
Qed.

Lemma copy_desc_length (n : nat) (d : string) :
  (String.length (copy_desc n d) <= n)%nat.
Proof.
  revert d. induction n as [|n IH]; intros [|c d]; simpl; try lia.
  destruct (Ascii.eqb c Ascii.zero); simpl; [lia|].
  specialize (IH d). lia.
Qed.

Lemma copy_desc_prefix (n : nat) (d : string) :
  String.prefix (copy_desc n d) d = true.
Proof.
  revert d. induction n as [|n IH]; intros [|c d]; simpl; try done.
  destruct (Ascii.eqb c Ascii.zero); simpl; [done|].
  destruct (Ascii.ascii_dec c c); [apply IH|done].
Qed.

Lemma copy_desc_short (n : nat) (d : string) :
  (String.length d <= n)%nat ->
  (forall c, In c (String.list_ascii_of_string d) -> c <> Ascii.zero) ->
  copy_desc n d = d.
Proof.
  revert d. induction n as [|n IH]; intros [|c d]; simpl; try done; try lia.
  intros Hlen Hnz.
  destruct (Ascii.eqb_spec c Ascii.zero) as [->|_].
  - by destruct (Hnz Ascii.zero (or_introl eq_refl)).
  - f_equal. apply IH; [lia|]. intros c' Hc'. apply Hnz. by right.
Qed.

Lemma add_existing_desc (ring ring' : list BenignRace) (addr sz : Z) :
  add_existing ring addr sz = Some ring' -> desc <$> ring' = desc <$> ring.
Proof.
  revert ring'. induction ring as [|b ring IH]; intros ring'; simpl; [done|].
  destruct (same_range addr sz b); [by intros [= <-]|].
  destruct (add_existing ring addr sz) as [r|]; [|done].
  intros [= <-]. cbn [fmap list_fmap]. f_equal. by apply IH.
Qed.

(** X4.  A description never overflows its buffer: every entry of the
    ring holds at most [kMaxDescLen - 1] characters; the description
    stored for a new entry is a prefix of the one passed in, and is the
    whole of it when that is short enough; and registering a range that
    is already there leaves the descriptions as they are (the first one
    stays). *)
Theorem descriptions_fit (P : Platform) (calls : list BenignCall)
    (f : string) (l addr sz : Z) (d : string) (ring ring' : list BenignRace) :
  Forall (fun b => Z.of_nat (String.length (desc b)) <= kMaxDescLen - 1)
         (annotate_all P calls)
  /\ String.prefix (desc (new_race f l addr sz (Some d))) d = true
  /\ ((String.length d <= 127)%nat ->
      (forall c, In c (String.list_ascii_of_string d) -> c <> Ascii.zero) ->
      desc (new_race f l addr sz (Some d)) = d)
  /\ (add_existing ring addr sz = Some ring' ->
      AddExpectRace ring f l addr sz (Some d) = ring'
      /\ desc <$> ring' = desc <$> ring).
Proof.
  split; [|split; [|split]].
  - induction calls as [|c calls IH] using rev_ind; [constructor|].
    rewrite annotate_all_snoc.
    unfold AnnotateBenignRaceSized, BenignRaceImpl, AddExpectRace.
    destruct (enable_annotations P); simpl; [|done].
    destruct (add_existing _ _ _) as [r|] eqn:Ha.
    + apply add_existing_desc in Ha.
      rewrite Forall_forall in IH. apply Forall_forall. intros b Hb.
      assert (desc b ∈ desc <$> r) as Hd by (by apply list_elem_of_fmap_2).
      rewrite Ha in Hd. apply list_elem_of_fmap in Hd as (b' & -> & Hb').
      by apply IH.
    + constructor; [|done]. unfold new_race. cbn [desc].
      destruct (b_desc c) as [d'|].
      * pose proof (copy_desc_length (Z.to_nat (kMaxDescLen - 1)) d').
        unfold kMaxDescLen in *. lia.
      * unfold kMaxDescLen. cbn [String.length]. lia.
  - apply copy_desc_prefix.
  - intros Hlen Hnz. by apply copy_desc_short.
  - intros Ha. unfold AddExpectRace. rewrite Ha.
    split; [done|by eapply add_existing_desc].
Qed.

Lemma CheckContains_existsb (ring : list BenignRace) (addr sz : Z) :
  (CheckContains ring addr sz).1 = existsb (race_hit addr sz) ring.
Proof.
  rewrite CheckContains_fst.
  induction ring as [|b ring IH]; cbn [fmap list_fmap FindRace existsb].
  - apply bool_decide_eq_false_2. by intros [? ?].
  - fold (race_hit addr sz b). destruct (race_hit addr sz b); [|done].
    apply bool_decide_eq_true_2. by eexists.
Qed.

Lemma existsb_alter_hit (ring : list BenignRace) (i : nat) (addr sz : Z) :
  existsb (race_hit addr sz) (alter bump_hitcount i ring)
  = existsb (race_hit addr sz) ring.
Proof.
  revert i. induction ring as [|b ring IH]; intros [|i]; try done.
  change (alter bump_hitcount (S i) (b :: ring))
    with (b :: alter bump_hitcount i ring).
  cbn [existsb]. by rewrite IH.
Qed.

(** X5.  A query of size zero is never an expected report, whatever the
    ring holds, and it leaves the ring as it is. *)
Theorem empty_query_never_hits (ring : list BenignRace) (a : Z) :
  0 <= a < 2 ^ 64 ->
  IsExpectedReport ring a 0 = (false, ring).
Proof.
  intros Ha. unfold IsExpectedReport, CheckContains.
  rewrite FindRace_miss; [done|].
  intros b _. unfold race_hit. apply Z.ltb_ge.
  rewrite Z.add_0_r, (uptr_small a) by done. lia.
Qed.

(** X6.  An entry whose range is empty, or ends exactly at the top of the
    address space (so that its end wraps to zero), is never found: a ring
    made of such entries expects no report. *)
Theorem degenerate_entries_never_hit (ring : list BenignRace) (a s : Z) :
  (forall b, b ∈ ring ->
             0 <= Race.addr (race b) < 2 ^ 64
             /\ (Race.size (race b) = 0
                 \/ Race.addr (race b) + Race.size (race b) = 2 ^ 64)) ->
  IsExpectedReport ring a s = (false, ring).
Proof.
  intros H. unfold IsExpectedReport, CheckContains.
  rewrite FindRace_miss; [done|].
  intros b Hb. destruct (H b Hb) as [Haddr [Hz|Htop]].
  - unfold race_hit. apply Z.ltb_ge.
    rewrite Hz, Z.add_0_r, (uptr_small (Race.addr (race b))) by done. lia.
  - unfold race_hit. apply Z.ltb_ge. rewrite Htop.
    change (uptr (2 ^ 64)) with 0. lia.
Qed.

(** X7.  [CheckContains] answers whether some entry overlaps the query;
    a miss leaves the ring untouched, a hit increments the [hitcount] of
    the first overlapping entry and of no other; and counting a hit never
    changes the answer to any later query. *)
Theorem check_contains_counts_one_hit (ring : list BenignRace) (a s : Z) :
  ((CheckContains ring a s).1 = true
   <-> exists b, b ∈ ring /\ race_hit a s b = true)
  /\ ((CheckContains ring a s).1 = false -> (CheckContains ring a s).2 = ring)
  /\ ((CheckContains ring a s).1 = true ->
      exists i b,
        ring !! i = Some b
        /\ race_hit a s b = true
        /\ (forall j b', (j < i)%nat -> ring !! j = Some b' ->
                         race_hit a s b' = false)
        /\ (CheckContains ring a s).2 = <[ i := bump_hitcount b ]> ring)
  /\ (forall a' s',
        (CheckContains (CheckContains ring a s).2 a' s').1
        = (CheckContains ring a' s').1).
Proof.
  split; [|split; [|split]].
  - rewrite CheckContains_existsb, existsb_exists.
    by setoid_rewrite list_elem_of_In.
  - unfold CheckContains.
    destruct (FindRace (race <$> ring) a s) eqn:Hf; [|done].
    by destruct (list_find _ ring) as [[i x]|].
  - unfold CheckContains. rewrite FindRace_list_find.
    destruct (list_find (fun b => race_hit a s b = true) ring)
      as [[i b]|] eqn:Hf; simpl; [|done].
    intros _. apply list_find_Some in Hf as (Hi & Hb & Hbefore).
    exists i, b. repeat split; [done|done| |].
    + intros j b' Hj Hb'. specialize (Hbefore j b' Hb' Hj).
      by destruct (race_hit a s b').
    + apply list_eq. intros j.
      destruct (decide (j = i)) as [->|Hne].
      * rewrite list_lookup_alter_eq, Hi. simpl.
        by rewrite list_lookup_insert_eq by (by eapply lookup_lt_Some).
      * rewrite list_lookup_alter_ne by done.
        by rewrite list_lookup_insert_ne by done.
  - intros a' s'. rewrite !CheckContains_existsb.
    unfold CheckContains.
    destruct (FindRace (race <$> ring) a s); [|done].
    destruct (list_find _ ring) as [[i x]|]; [|done].
    simpl. apply existsb_alter_hit.
Qed.

(** X8.  [AnnotateBenignRace] registers exactly the byte at [mem]: on a
    fresh ring, for a byte below the top of the address space
    ([mem + 1 < 2^64]) and a query that does not wrap
    ([a + s < 2^64]), the query is an expected report precisely when
    annotations are enabled and the queried range contains [mem].  (The
    byte at [2^64 - 1] is never found, see X6.) *)
Theorem benign_race_covers_one_byte
    (P : Platform) (f : string) (l mem : Z) (d : option string) (a s : Z) :
  0 <= mem -> mem + 1 < 2 ^ 64 ->
  0 <= a -> 0 <= s -> a + s < 2 ^ 64 ->
  (IsExpectedReport
     (AnnotateBenignRace P InitializeDynamicAnnotations f l mem d) a s).1
  = enable_annotations P && bool_decide (a <= mem < a + s).
Proof.
  intros Hm Hm1 Ha Hs Has.
  unfold IsExpectedReport. rewrite CheckContains_existsb.
  unfold AnnotateBenignRace, BenignRaceImpl, AddExpectRace,
    InitializeDynamicAnnotations.
  destruct (enable_annotations P); simpl; [|done].
  rewrite orb_false_r.
  rewrite (race_hit_overlap _ mem 1 a s) by (done || lia).
  destruct (Z.ltb_spec (Z.max mem a) (Z.min (mem + 1) (a + s))).
  - symmetry. apply bool_decide_eq_true_2. lia.
  - symmetry. apply bool_decide_eq_false_2. lia.
Qed.

(* ===================================================================== *)
(** * Part VII: sizes, callees, prefixes                                  *)
(* ===================================================================== *)

(** X9.  The callee index and the access size agree, and both look at
    the low 32 bits of the store size in bits only: either these are
    none of 8, 16, 32, 64 and 128 and both functions return [-1], or the
    index is a valid index into the callee tables (below
    [kNumberOfAccessSizes]), the size is [1 << index] bytes, and the low
    32 bits of the store size are [8 * size].  So a type of
    [2^32 + 8] bits is taken for a one-byte access. *)
Theorem access_index_and_size (StoreSizeInBits : Z) :
  ((getMemoryAccessFuncIndex StoreSizeInBits = -1
    /\ getMemoryAccessSize StoreSizeInBits = -1
    /\ ~ In (StoreSizeInBits mod 2 ^ 32) [8; 16; 32; 64; 128])
   \/ (0 <= getMemoryAccessFuncIndex StoreSizeInBits
            < Z.of_nat kNumberOfAccessSizes
       /\ getMemoryAccessSize StoreSizeInBits
          = Z.shiftl 1 (getMemoryAccessFuncIndex StoreSizeInBits)
       /\ StoreSizeInBits mod 2 ^ 32
          = 8 * getMemoryAccessSize StoreSizeInBits))
  /\ getMemoryAccessFuncIndex (2 ^ 32 + 8) = 0
  /\ getMemoryAccessSize (2 ^ 32 + 8) = 1.
Proof.
  split; [|by vm_compute].
  unfold getMemoryAccessFuncIndex, getMemoryAccessSize, uint32_t.
  cbv zeta. generalize (StoreSizeInBits mod 2 ^ 32) as TypeSize.
  intros TypeSize.
  destruct (Z.eqb_spec TypeSize 8) as [->|H8]; [right; by vm_compute|].
  destruct (Z.eqb_spec TypeSize 16) as [->|H16]; [right; by vm_compute|].
  destruct (Z.eqb_spec TypeSize 32) as [->|H32]; [right; by vm_compute|].
  destruct (Z.eqb_spec TypeSize 64) as [->|H64]; [right; by vm_compute|].
  destruct (Z.eqb_spec TypeSize 128) as [->|H128]; [right; by vm_compute|].
  left. simpl. repeat split. intros [?|[?|[?|[?|[?|[]]]]]]; congruence.
Qed.

Lemma pow2_mod_small (k : Z) (s : Z) :
  0 <= k -> In s [1; 2; 4; 8; 16] ->
  ((8 <=? 2 ^ k) || (2 ^ k mod s =? 0)) = (Z.min 8 s <=? 2 ^ k).
Proof.
  intros Hk Hs.
  destruct (Z.le_gt_cases 3 k) as [H3|H3].
  - assert (8 <= 2 ^ k).
    { change 8 with (2 ^ 3). apply Z.pow_le_mono_r; lia. }
    rewrite (proj2 (Z.leb_le 8 (2 ^ k))) by lia. simpl.
    symmetry. apply Z.leb_le. lia.
  - assert (k = 0 \/ k = 1 \/ k = 2) as [->|[->| ->]] by lia;
      destruct Hs as [<-|[<-|[<-|[<-|[<-|[]]]]]]; reflexivity.
Qed.

(** X10.  For an access with a power-of-two alignment,
    [Arbalest::instrumentLoadOrStore] puts a call in front of it unless
    the address is swifterror, the low 32 bits of the store size in bits
    are none of 8, 16, 32, 64 and 128, or it is a vtable access (which
    still counts as instrumented); the callee is [__arbalest_read] or
    [__arbalest_write] followed by the size of the access in bytes, that
    is an eighth of those low 32 bits, and the [unaligned_] variant is
    used exactly when the alignment is below both eight and that
    size. *)
Theorem arbalest_access_callee (I : MemInst) (k : Z) :
  0 <= k ->
  Alignment I = 2 ^ k ->
  Arbalest_instrumentLoadOrStore I
  = if isSwiftError I then (false, None)
    else if bool_decide (AccessBits I mod 2 ^ 32 ∉ [8; 16; 32; 64; 128])
    then (false, None)
    else if isVtableAccess I then (true, None)
    else
      (true,
       Some ("__arbalest_"
             +:+ (if Z.min 8 (AccessBits I mod 2 ^ 32 / 8) <=? Alignment I
                  then "" else "unaligned_")
             +:+ (if IsWrite I then "write" else "read")
             +:+ utostr (AccessBits I mod 2 ^ 32 / 8))).
Proof.
  intros Hk Ha. unfold Arbalest_instrumentLoadOrStore.
  destruct (isSwiftError I); [done|].
  unfold getMemoryAccessFuncIndex, uint32_t. cbv zeta.
  generalize (AccessBits I mod 2 ^ 32) as bits. intros bits.
  assert (forall b, In b [8; 16; 32; 64; 128] ->
            (if countTrailingZeros (b / 8) <? 0 then (false, None)
             else if isVtableAccess I then (true, None)
             else (true,
                   (if (8 <=? Alignment I) || (Alignment I mod (b / 8) =? 0)
                    then if IsWrite I then ArbalestWrite else ArbalestRead
                    else if IsWrite I then ArbalestUnalignedWrite
                         else ArbalestUnalignedRead)
                   !! Z.to_nat (countTrailingZeros (b / 8))))
            = (if bool_decide (b ∉ [8; 16; 32; 64; 128]) then (false, None)
               else if isVtableAccess I then (true, None)
               else (true,
                     Some ("__arbalest_"
                           +:+ (if Z.min 8 (b / 8) <=? Alignment I
                                then "" else "unaligned_")
                           +:+ (if IsWrite I then "write" else "read")
                           +:+ utostr (b / 8))))) as Hcase.
  { intros b Hb. rewrite Ha.
    assert (In (b / 8) [1; 2; 4; 8; 16]) as Hs.
    { destruct Hb as [<-|[<-|[<-|[<-|[<-|[]]]]]]; simpl; tauto. }
    rewrite (pow2_mod_small k (b / 8) Hk Hs).
    destruct (isVtableAccess I), (IsWrite I),
      (Z.min 8 (b / 8) <=? 2 ^ k);
      destruct Hb as [<-|[<-|[<-|[<-|[<-|[]]]]]]; reflexivity. }
  destruct (Z.eqb_spec bits 8) as [->|H8];
    [apply (Hcase 8); simpl; tauto|].
  destruct (Z.eqb_spec bits 16) as [->|H16];
    [apply (Hcase 16); simpl; tauto|].
  destruct (Z.eqb_spec bits 32) as [->|H32];
    [apply (Hcase 32); simpl; tauto|].
  destruct (Z.eqb_spec bits 64) as [->|H64];
    [apply (Hcase 64); simpl; tauto|].
  destruct (Z.eqb_spec bits 128) as [->|H128];
    [apply (Hcase 128); simpl; tauto|].
  simpl. rewrite bool_decide_eq_true_2; [done|].
  rewrite !elem_of_cons, elem_of_nil. lia.
Qed.

Lemma prefix_trans (a b c : string) :
  String.prefix a b = true -> String.prefix b c = true ->
  String.prefix a c = true.
Proof.
  revert b c. induction a as [|x a IH]; intros [|y b] [|z c]; simpl;
    try done.
  destruct (Ascii.ascii_dec x y) as [->|]; [|done].
  destruct (Ascii.ascii_dec y z) as [->|]; [|done].
  destruct (Ascii.ascii_dec z z); [|done]. apply IH.
Qed.

(** X11.  Whatever the debug mode and the functions of the module, the
    prefix that [setOmpOutlinedFuncPrefix] chooses starts with
    [.omp_outlined]: a function whose name does not start with
    [.omp_outlined] never gets bound checks from [sanitizeFunction].
    Outside debug mode the prefix is [.omp_outlined] itself; in debug
    mode it is the longer debug prefix as soon as one function of the
    module carries it, and then the plain [.omp_outlined.] wrappers are
    left without bound checks. *)
Theorem outlined_prefix_choice
    (ClOMPDebugMode ClEnableArbalest : bool) (names : list string)
    (instrumentAccesses : list BasicBlock -> list BasicBlock)
    (F : Function) :
  String.prefix OptPrefix (setOmpOutlinedFuncPrefix ClOMPDebugMode names)
  = true
  /\ (String.prefix OptPrefix (Name F) = false ->
      sanitizeFunction ClEnableArbalest
        (setOmpOutlinedFuncPrefix ClOMPDebugMode names)
        instrumentAccesses F = F
      \/ body (sanitizeFunction ClEnableArbalest
                 (setOmpOutlinedFuncPrefix ClOMPDebugMode names)
                 instrumentAccesses F)
         = instrumentAccesses (body F))
  /\ (ClOMPDebugMode = false ->
      setOmpOutlinedFuncPrefix ClOMPDebugMode names = OptPrefix)
  /\ (ClOMPDebugMode = true ->
      (exists n, In n names /\ String.prefix DebugPrefix n = true) ->
      setOmpOutlinedFuncPrefix ClOMPDebugMode names = DebugPrefix
      /\ String.prefix (setOmpOutlinedFuncPrefix ClOMPDebugMode names)
                       ".omp_outlined." = false).
Proof.
  assert (String.prefix OptPrefix
            (setOmpOutlinedFuncPrefix ClOMPDebugMode names) = true) as Hp.
  { unfold setOmpOutlinedFuncPrefix.
    by destruct (negb (ClOMPDebugMode && existsb _ names)). }
  split; [done|]. split; [|split].
  - intros Hn. unfold sanitizeFunction.
    destruct (String.eqb _ _); [by left|].
    destruct (Naked F); [by left|].
    destruct (DisableSanitizerInstrumentation F); [by left|].
    destruct ClEnableArbalest; [|by right].
    destruct (String.prefix (setOmpOutlinedFuncPrefix _ _) (Name F)) eqn:Hs;
      [|by right].
    rewrite (prefix_trans _ _ _ Hp Hs) in Hn. done.
  - by intros ->.
  - intros -> Hex. apply existsb_exists in Hex.
    unfold setOmpOutlinedFuncPrefix. rewrite Hex. by simpl.
Qed.

(** X12.  [insertModuleCtor] always creates the race detector's
    constructor, and creates the Arbalest one exactly for a host module
    with Arbalest enabled.  The globals it hands to [__arbalest_init] are
    the named ones whose name starts neither with a dot nor with [llvm],
    in module order; the three arrays have the same length, which is the
    count passed along (for fewer than 2^32 globals); and the arrays are
    null exactly when that count is zero. *)
Theorem arbalest_init_arguments
    (ClEnableArbalest : bool) (TargetTriple : string)
    (globals : list GlobalVariable) :
  Z.of_nat (length globals) < 2 ^ 32 ->
  (exists rest,
     insertModuleCtor ClEnableArbalest TargetTriple globals
     = {| CtorName := kTsanModuleCtorName; InitName := kTsanInitName;
          InitCount := None; InitInfo := None |} :: rest
     /\ (rest <> [] <->
         TargetTriple = "x86_64-unknown-linux-gnu"
         /\ ClEnableArbalest = true))
  /\ (forall c,
        In c (insertModuleCtor ClEnableArbalest TargetTriple globals) ->
        InitName c = kArbalestInitName ->
        match InitInfo c with
        | Some info =>
            Globals info = List.filter isUserDefinedGlob globals
            /\ GlobalsSize info = GStoreSize <$> Globals info
            /\ GlobalsName info = GName <$> Globals info
            /\ InitCount c = Some (Z.of_nat (length (Globals info)))
            /\ InitCount c = Some (Z.of_nat (length (GlobalsSize info)))
            /\ InitCount c = Some (Z.of_nat (length (GlobalsName info)))
            /\ Globals info <> []
        | None =>
            InitCount c = Some 0
            /\ List.filter isUserDefinedGlob globals = []
        end).
Proof.
  intros Hlen. unfold insertModuleCtor. split.
  - eexists. split; [reflexivity|].
    destruct (String.eqb_spec TargetTriple "x86_64-unknown-linux-gnu");
      destruct ClEnableArbalest; simpl; split; try done; intros [? ?]; done.
  - intros c [<-|Hc] Hn; [done|].
    destruct (String.eqb TargetTriple "x86_64-unknown-linux-gnu"
              && ClEnableArbalest); [|done].
    destruct Hc as [<-|[]]. simpl. unfold insertGlobalVariableInfo.
    pose proof (filter_length_le isUserDefinedGlob globals) as Hle.
    destruct (List.filter isUserDefinedGlob globals) as [|G Gs] eqn:Hf;
      simpl; [done|].
    rewrite !length_fmap.
    rewrite Z.mod_small by (simpl in Hle; lia). done.
Qed.

(* ===================================================================== *)
(** * Part VIII: every load through a GEP is checked                      *)
(* ===================================================================== *)


(* ===================================================================== *)
(** * Part IX: the selection of accesses                                  *)
(* ===================================================================== *)

Section SelectionFacts.
Variable should : Value -> bool.
Variable const : Value -> bool.
Variable uncaptured : Value -> bool.
Variables ClRBW ClDV ClCRW ClArb : bool.

Local Abbreviation step := (choose_step should const uncaptured ClRBW ClDV).
Local Abbreviation choose :=
  (chooseInstructionsToInstrument should const uncaptured ClRBW ClDV).
Local Abbreviation arb_choose :=
  (Arbalest_chooseInstructionsToInstrument should const).
Local Abbreviation wants := (arbalest_wants should const).

Lemma find_target_In (WT : list (Value * nat)) (a : Value) (idx : nat) :
  find_target WT a = Some idx -> In (a, idx) WT.
Proof.
  unfold find_target.
  destruct (List.find _ WT) as [[a' i]|] eqn:Hf; [|done].
  intros [= <-]. apply find_some in Hf as [Hin Ha].
  apply bool_decide_eq_true in Ha. simpl in Ha. by subst.
Qed.

Lemma step_cases (WT : list (Value * nat)) (All : list InstructionInfo)
    (I : MemInst) :
  step (WT, All) I = (WT, All)
  \/ (step (WT, All) I
      = (if IsWrite I then (Addr I, length All) :: WT else WT,
         All ++ [ {| Inst := I; Flags := 0 |} ])
      /\ wants I = true)
  \/ (exists idx,
        find_target WT (Addr I) = Some idx
        /\ IsWrite I = false
        /\ (ClDV && (isVolatile I
                     || default false ((isVolatile ∘ Inst) <$> All !! idx)))
           = false
        /\ step (WT, All) I = (WT, alter mark_compound idx All)).
Proof.
  unfold choose_step, arbalest_wants. simpl.
  destruct (should (Addr I)); simpl; [|by left].
  destruct (IsWrite I) eqn:Hw; simpl.
  - destruct (uncaptured (Addr I)); [by left|]. right. left. done.
  - assert ((if const (Addr I) then (WT, All)
             else if uncaptured (Addr I) then (WT, All)
                  else (WT, All ++ [ {| Inst := I; Flags := 0 |} ]))
            = (WT, All)
            \/ (if const (Addr I) then (WT, All)
                else if uncaptured (Addr I) then (WT, All)
                     else (WT, All ++ [ {| Inst := I; Flags := 0 |} ]))
               = (WT, All ++ [ {| Inst := I; Flags := 0 |} ])
               /\ negb (const (Addr I)) = true) as Hrest.
    { destruct (const (Addr I)); [by left|].
      destruct (uncaptured (Addr I)); [by left|]. by right. }
    destruct (find_target WT (Addr I)) as [idx|] eqn:Hf.
    + destruct ClRBW; simpl.
      * destruct Hrest as [->|[-> ?]]; [by left|right; left; done].
      * destruct (ClDV && (isVolatile I
                   || default false ((isVolatile ∘ Inst) <$> All !! idx)))
          eqn:Hv; simpl.
        -- destruct Hrest as [->|[-> ?]];
             [by left|right; left; done].
        -- right. right. by exists idx.
    + destruct Hrest as [->|[-> ?]]; [by left|right; left; done].
Qed.

Lemma is_compound_mark (II : InstructionInfo) :
  is_compound (mark_compound II) = true.
Proof.
  unfold is_compound, mark_compound, kCompoundRW. simpl.
  apply negb_true_iff, Z.eqb_neq. intros H.
  assert (Z.testbit (Z.land (Z.lor (Flags II) 1) 1) 0 = false) as Hb
    by (by rewrite H).
  rewrite Z.land_spec, Z.lor_spec in Hb. simpl in Hb.
  by rewrite orb_true_r in Hb.
Qed.

Lemma step_invariants (WT : list (Value * nat)) (All : list InstructionInfo)
    (I : MemInst) :
  flags_ok ClDV All -> targets_ok WT All ->
  flags_ok ClDV (step (WT, All) I).2
  /\ targets_ok (step (WT, All) I).1 (step (WT, All) I).2.
Proof.
  intros Hf Ht.
  destruct (step_cases WT All I) as [->|[[-> _]|(idx & Hidx & Hw & Hv & ->)]];
    simpl.
  - done.
  - split.
    + apply Forall_app. split; [done|]. by constructor.
    + intros p Hp.
      assert (In p WT -> exists II,
                (All ++ [ {| Inst := I; Flags := 0 |} ]) !! p.2 = Some II
                /\ IsWrite (Inst II) = true /\ Addr (Inst II) = p.1) as Hold.
      { intros Hin. destruct (Ht p Hin) as (II & Hl & ? & ?).
        exists II. split; [|done]. rewrite lookup_app_l; [done|].
        by eapply lookup_lt_Some. }
      destruct (IsWrite I) eqn:Hw; [|by apply Hold].
      destruct Hp as [<-|Hp]; [|by apply Hold].
      exists {| Inst := I; Flags := 0 |}. simpl.
      split; [|done]. by rewrite list_lookup_middle.
  - apply find_target_In in Hidx.
    destruct (Ht _ Hidx) as (W & HW & HWw & HWa). simpl in HW.
    split.
    + apply Forall_alter; [done|]. intros II HII _ _.
      assert (II = W) as -> by congruence. split; [done|].
      intros ->. simpl in Hv. rewrite HW in Hv. simpl in Hv.
      by apply orb_false_elim in Hv as [_ ?].
    + intros p Hp. destruct (Ht p Hp) as (II & Hl & ? & ?).
      destruct (decide (idx = p.2)) as [->|Hne].
      * exists (mark_compound II). rewrite list_lookup_alter_eq, Hl. done.
      * exists II. by rewrite list_lookup_alter_ne.
Qed.

Lemma fold_invariants (l : list MemInst) (WT : list (Value * nat))
    (All : list InstructionInfo) :
  flags_ok ClDV All -> targets_ok WT All ->
  flags_ok ClDV (foldl step (WT, All) l).2
  /\ targets_ok (foldl step (WT, All) l).1 (foldl step (WT, All) l).2.
Proof.
  revert WT All. induction l as [|I l IH]; intros WT All Hf Ht; simpl;
    [done|].
  destruct (step_invariants WT All I Hf Ht) as [Hf' Ht'].
  destruct (step (WT, All) I) as [WT' All']. by apply IH.
Qed.

Lemma choose_flags_ok (Local : list MemInst) (All : list InstructionInfo) :
  flags_ok ClDV All -> flags_ok ClDV (choose Local All).
Proof.
  intros Hf. unfold chooseInstructionsToInstrument.
  apply (fold_invariants _ [] All Hf). by intros p [].
Qed.

Lemma In_alter_mark (All : list InstructionInfo) (idx : nat)
    (II : InstructionInfo) :
  In II (alter mark_compound idx All) ->
  exists II0, In II0 All /\ Inst II = Inst II0.
Proof.
  intros Hin. apply list_elem_of_In, list_elem_of_lookup_1 in Hin as [j Hj].
  destruct (decide (idx = j)) as [->|Hne].
  - rewrite list_lookup_alter_eq in Hj.
    destruct (All !! j) as [II0|] eqn:H0; [|done]. injection Hj as <-.
    exists II0. split; [|done]. by eapply list_elem_of_In, list_elem_of_lookup_2.
  - rewrite list_lookup_alter_ne in Hj by done.
    exists II. split; [|done]. by eapply list_elem_of_In, list_elem_of_lookup_2.
Qed.

Lemma fold_from_old (l : list MemInst) (WT : list (Value * nat))
    (All : list InstructionInfo) :
  from_old_or should const l All (foldl step (WT, All) l).2.
Proof.
  revert WT All. induction l as [|I l IH]; intros WT All; simpl.
  - intros II HII. left. by exists II.
  - intros II HII.
    destruct (step_cases WT All I)
      as [Hs|[[Hs Hw]|(idx & _ & _ & _ & Hs)]]; rewrite Hs in HII.
    + destruct (IH _ _ II HII) as [?|[? ?]]; [by left|right; split; [by right|done]].
    + destruct (IH _ _ II HII) as [(II0 & H0 & Heq)|[? ?]];
        [|right; split; [by right|done]].
      apply in_app_or in H0 as [H0|[<-|[]]]; [left; eauto|].
      right. simpl in Heq. rewrite Heq. split; [by left|done].
    + destruct (IH _ _ II HII) as [(II0 & H0 & Heq)|[? ?]];
        [|right; split; [by right|done]].
      apply In_alter_mark in H0 as (II1 & H1 & Heq1).
      left. exists II1. split; [done|congruence].
Qed.

Lemma arb_choose_filter (Local All : list MemInst) :
  arb_choose Local All = All ++ List.filter wants (rev Local).
Proof.
  unfold Arbalest_chooseInstructionsToInstrument, arbalest_wants.
  generalize (rev Local) as l. intros l. revert All.
  induction l as [|I l IH]; intros All; simpl; [by rewrite app_nil_r|].
  rewrite IH. destruct (should (Addr I)); simpl; [|done].
  destruct (IsWrite I); simpl.
  - by rewrite <- app_assoc.
  - destruct (const (Addr I)); simpl; [done|by rewrite <- app_assoc].
Qed.

End SelectionFacts.

Section TraversalFacts.
Variable should : Value -> bool.
Variable const : Value -> bool.
Variable uncaptured : Value -> bool.
Variables ClRBW ClDV ClCRW ClArb : bool.

Local Abbreviation wants := (arbalest_wants should const).
Local Abbreviation flush' :=
  (flush should const uncaptured ClRBW ClDV ClArb).
Local Abbreviation collect_inst' :=
  (collect_inst should const uncaptured ClRBW ClDV ClArb).
Local Abbreviation collect' :=
  (collect should const uncaptured ClRBW ClDV ClArb).

Lemma flush_ok (c : Collected) (ms : list MemInst) :
  collected_ok should const ClDV ClArb c ms ->
  collected_ok should const ClDV ClArb (flush' c) ms /\ LocalLoadsAndStores (flush' c) = [].
Proof.
  intros (HL & HA & HF & HP & HS & HN). split; [|done].
  unfold collected_ok, flush. simpl.
  pose proof (fold_from_old should const uncaptured ClRBW ClDV
                (rev (LocalLoadsAndStores c)) [] (AllLoadsAndStores c))
    as Hnew.
  fold (chooseInstructionsToInstrument should const uncaptured ClRBW ClDV
          (LocalLoadsAndStores c) (AllLoadsAndStores c)) in Hnew.
  repeat split.
  - done.
  - destruct (Hnew II H) as [(II0 & H0 & ->)|[Hin Hw]];
      [by apply HA|]. apply HL. by apply in_rev.
  - destruct (Hnew II H) as [(II0 & H0 & ->)|[Hin Hw]];
      [by apply HA|done].
  - by apply choose_flags_ok.
  - intros ->. rewrite arb_choose_filter, app_nil_r.
    etransitivity; [|by apply HP].
    apply Permutation_app_head. rewrite List.filter_rev.
    symmetry. apply Permutation_rev.
  - intros -> II HII. rewrite arb_choose_filter. apply in_or_app.
    destruct (Hnew II HII) as [(II0 & H0 & ->)|[Hin Hw]];
      [left; by apply HS|].
    right. by apply filter_In.
  - intros ->. by apply HN.
Qed.

Lemma collect_inst_ok (c : Collected) (ms : list MemInst) (I : Sorted) :
  collected_ok should const ClDV ClArb c ms ->
  collected_ok should const ClDV ClArb (collect_inst' c I) (ms ++ from_option (fun m => [m]) [] (sel_mem I)).
Proof.
  intros Hc. destruct I as [id|m|id mi|id]; simpl; rewrite ?app_nil_r;
    try done.
  - destruct Hc as (HL & HA & HF & HP & HS & HN).
    unfold collected_ok. simpl. repeat split.
    + intros m' [Hm'|[<-|[]]]%in_app_or; apply in_or_app;
        [left; by apply HL|right; by left].
    + apply in_or_app. left. by apply HA.
    + by apply HA.
    + done.
    + intros Harb. rewrite !List.filter_app, app_assoc.
      apply Permutation_app_tail. by apply HP.
    + done.
    + done.
  - apply flush_ok. by destruct Hc as (HL & HA & HF & HP & HS & HN).
Qed.

Lemma collect_block_ok (c : Collected) (ms : list MemInst)
    (BB : list Sorted) :
  collected_ok should const ClDV ClArb c ms ->
  collected_ok should const ClDV ClArb (foldl collect_inst' c BB) (ms ++ omap sel_mem BB).
Proof.
  revert c ms. induction BB as [|I BB IH]; intros c ms Hc; simpl.
  - by rewrite app_nil_r.
  - apply (collect_inst_ok c ms I), IH in Hc.
    destruct (sel_mem I); simpl in *; by rewrite <- ?app_assoc, ?app_nil_r in Hc.
Qed.

Lemma collect_ok_from (c : Collected) (ms : list MemInst)
    (F : list (list Sorted)) :
  collected_ok should const ClDV ClArb c ms -> LocalLoadsAndStores c = [] ->
  collected_ok should const ClDV ClArb (foldl (fun c BB => flush' (foldl collect_inst' c BB)) c F)
               (ms ++ omap sel_mem (concat F))
  /\ LocalLoadsAndStores
       (foldl (fun c BB => flush' (foldl collect_inst' c BB)) c F) = [].
Proof.
  revert c ms. induction F as [|BB F IH]; intros c ms Hc Hl; simpl.
  - by rewrite app_nil_r.
  - rewrite omap_app, app_assoc. apply IH; [|done].
    apply flush_ok, collect_block_ok, Hc.
Qed.

End TraversalFacts.

Lemma collect_is_ok
    (should const uncaptured : Value -> bool) (ClRBW ClDV ClArb : bool)
    (F : list (list Sorted)) :
  collected_ok should const ClDV ClArb
    (collect should const uncaptured ClRBW ClDV ClArb F) (mem_insts F)
  /\ LocalLoadsAndStores (collect should const uncaptured ClRBW ClDV ClArb F)
     = [].
Proof.
  unfold collect.
  apply (collect_ok_from should const uncaptured ClRBW ClDV ClArb _ [] F);
    [|done].
  unfold collected_ok, flags_ok. simpl. repeat split; done.
Qed.

(** X14.  The traversal of [sanitizeFunction] hands every plain load and
    store that passes Arbalest's filter (an instrumentable address, and
    for a load no constant data behind it) to the Arbalest
    instrumentation exactly once: the list collected is a permutation of
    the filtered accesses of the function, nothing is left in the local
    buffer at the end, and with Arbalest off the list stays empty. *)
Theorem arbalest_sees_each_access_once
    (should const uncaptured : Value -> bool) (ClRBW ClDV ClArb : bool)
    (F : list (list Sorted)) :
  LocalLoadsAndStores (collect should const uncaptured ClRBW ClDV ClArb F)
  = []
  /\ (ClArb = true ->
      Permutation
        (AllLoadsAndStoresForArbalest
           (collect should const uncaptured ClRBW ClDV ClArb F))
        (List.filter (arbalest_wants should const) (mem_insts F)))
  /\ (ClArb = false ->
      AllLoadsAndStoresForArbalest
        (collect should const uncaptured ClRBW ClDV ClArb F) = []).
Proof.
  destruct (collect_is_ok should const uncaptured ClRBW ClDV ClArb F)
    as [(_ & _ & _ & HP & _ & HN) Hl].
  split; [done|]. split; [|done].
  intros Harb. specialize (HP Harb). rewrite Hl in HP. simpl in HP.
  by rewrite app_nil_r in HP.
Qed.


(** X16.  In the list the race detector selects, an entry flagged as a
    compound read-write is always a store, and never a volatile one when
    volatile accesses are told apart: the assertion "Compound volatile
    invalid!" of [instrumentLoadOrStore] holds for every entry. *)
Theorem compound_entries_are_plain_stores
    (should const uncaptured : Value -> bool) (ClRBW ClDV ClCRW ClArb : bool)
    (F : list (list Sorted)) (II : InstructionInfo) :
  In II (AllLoadsAndStores
           (collect should const uncaptured ClRBW ClDV ClArb F)) ->
  compound_volatile_assertion ClDV ClCRW II = true
  /\ (is_compound II = true -> IsWrite (Inst II) = true).
Proof.
  intros HII.
  destruct (collect_is_ok should const uncaptured ClRBW ClDV ClArb F)
    as [(_ & _ & HF & _) _].
  unfold flags_ok in HF. rewrite Forall_forall in HF.
  specialize (HF II (proj2 (list_elem_of_In _ _) HII)).
  unfold compound_volatile_assertion, IsVolatile, IsCompoundRW.
  destruct (is_compound II); [|by rewrite andb_false_r, orb_true_r].
  destruct (HF eq_refl) as [Hw Hv]. split; [|done].
  destruct ClDV; [|done]. by rewrite (Hv eq_refl).
Qed.

Section ReadBeforeWrite.
Variable should : Value -> bool.
Variable const : Value -> bool.
Variable uncaptured : Value -> bool.
Variables ClRBW ClDV : bool.

Local Abbreviation step := (choose_step should const uncaptured ClRBW ClDV).

Lemma find_target_cons (WT : list (Value * nat)) (a b : Value) (i : nat) :
  is_Some (find_target WT a) -> is_Some (find_target ((b, i) :: WT) a).
Proof.
  unfold find_target. simpl. intros H.
  destruct (bool_decide (b = a)); [by eexists|done].
Qed.

Lemma step_targets_mono (s : list (Value * nat) * list InstructionInfo)
    (I : MemInst) (a : Value) :
  is_Some (find_target s.1 a) -> is_Some (find_target (step s I).1 a).
Proof.
  destruct s as [WT All]. simpl. intros H.
  destruct (step_cases should const uncaptured ClRBW ClDV WT All I)
    as [->|[[-> _]|(idx & _ & _ & _ & ->)]]; simpl; try done.
  destruct (IsWrite I); [by apply find_target_cons|done].
Qed.

Lemma fold_targets_mono (l : list MemInst)
    (s : list (Value * nat) * list InstructionInfo) (a : Value) :
  is_Some (find_target s.1 a) -> is_Some (find_target (foldl step s l).1 a).
Proof.
  revert s. induction l as [|I l IH]; intros s H; simpl; [done|].
  by apply IH, step_targets_mono.
Qed.

Lemma step_write_adds (s : list (Value * nat) * list InstructionInfo)
    (W : MemInst) :
  IsWrite W = true -> should (Addr W) = true ->
  uncaptured (Addr W) = false ->
  is_Some (find_target (step s W).1 (Addr W)).
Proof.
  intros Hw Hs Hu. destruct s as [WT All].
  unfold choose_step, find_target. simpl. rewrite Hs, Hw, Hu. simpl.
  rewrite bool_decide_eq_true_2 by done. by eexists.
Qed.

Lemma step_read_marks (WT : list (Value * nat)) (All : list InstructionInfo)
    (R : MemInst) (idx : nat) :
  ClRBW = false -> ClDV = false ->
  IsWrite R = false -> should (Addr R) = true ->
  find_target WT (Addr R) = Some idx ->
  step (WT, All) R = (WT, alter mark_compound idx All).
Proof.
  intros -> -> Hw Hs Hf. unfold choose_step. simpl.
  by rewrite Hs, Hw, Hf.
Qed.

Lemma step_targets_ok (WT : list (Value * nat)) (All : list InstructionInfo)
    (I : MemInst) :
  targets_ok WT All -> targets_ok (step (WT, All) I).1 (step (WT, All) I).2.
Proof.
  intros Ht.
  destruct (step_cases should const uncaptured ClRBW ClDV WT All I)
    as [->|[[-> _]|(idx & Hidx & Hw & Hv & ->)]]; simpl.
  - done.
  - intros p Hp.
    assert (In p WT -> exists II,
              (All ++ [ {| Inst := I; Flags := 0 |} ]) !! p.2 = Some II
              /\ IsWrite (Inst II) = true /\ Addr (Inst II) = p.1) as Hold.
    { intros Hin. destruct (Ht p Hin) as (II & Hl & ? & ?).
      exists II. split; [|done]. rewrite lookup_app_l; [done|].
      by eapply lookup_lt_Some. }
    destruct (IsWrite I) eqn:Hw; [|by apply Hold].
    destruct Hp as [<-|Hp]; [|by apply Hold].
    exists {| Inst := I; Flags := 0 |}. simpl.
    split; [|done]. by rewrite list_lookup_middle.
  - intros p Hp. destruct (Ht p Hp) as (II & Hl & ? & ?).
    destruct (decide (idx = p.2)) as [->|Hne].
    + exists (mark_compound II). rewrite list_lookup_alter_eq, Hl. done.
    + exists II. by rewrite list_lookup_alter_ne.
Qed.

Lemma fold_targets_ok (l : list MemInst) (WT : list (Value * nat))
    (All : list InstructionInfo) :
  targets_ok WT All ->
  targets_ok (foldl step (WT, All) l).1 (foldl step (WT, All) l).2.
Proof.
  revert WT All. induction l as [|I l IH]; intros WT All Ht; simpl; [done|].
  pose proof (step_targets_ok WT All I Ht) as Ht'.
  destruct (step (WT, All) I) as [WT' All']. by apply IH.
Qed.

Lemma alter_keeps_compound_write (a : Value) (idx : nat)
    (All : list InstructionInfo) :
  has_compound_write a All ->
  has_compound_write a (alter mark_compound idx All).
Proof.
  intros (II & Hin & Hc & Hw & Ha).
  apply list_elem_of_In, list_elem_of_lookup_1 in Hin as [j Hj].
  destruct (decide (idx = j)) as [->|Hne].
  - exists (mark_compound II). split; [|by rewrite is_compound_mark].
    apply list_elem_of_In, (list_elem_of_lookup_2 _ j).
    by rewrite list_lookup_alter_eq, Hj.
  - exists II. split; [|done].
    apply list_elem_of_In, (list_elem_of_lookup_2 _ j).
    by rewrite list_lookup_alter_ne.
Qed.

Lemma fold_keeps_compound_write (a : Value) (l : list MemInst)
    (s : list (Value * nat) * list InstructionInfo) :
  has_compound_write a s.2 -> has_compound_write a (foldl step s l).2.
Proof.
  revert s. induction l as [|I l IH]; intros [WT All] H; simpl; [done|].
  apply IH.
  destruct (step_cases should const uncaptured ClRBW ClDV WT All I)
    as [->|[[-> _]|(idx & _ & _ & _ & ->)]]; simpl in *.
  - done.
  - destruct H as (II & Hin & ?). exists II.
    split; [apply in_or_app; by left|done].
  - by apply alter_keeps_compound_write.
Qed.

(** X17.  Read-before-write elimination: when neither reads before
    writes nor volatile accesses get special treatment, a load that is
    followed, in the same run of accesses, by an instrumented store to
    the same address is not selected itself; instead a store to that
    address carries the compound flag. *)
Theorem read_before_write_is_folded
    (before after : list MemInst) (R W : MemInst)
    (All : list InstructionInfo) :
  ClRBW = false -> ClDV = false ->
  ~ In R before -> ~ In R after ->
  (forall II, In II All -> Inst II <> R) ->
  IsWrite R = false -> should (Addr R) = true ->
  In W after -> IsWrite W = true -> Addr W = Addr R ->
  uncaptured (Addr W) = false ->
  (forall II,
     In II (chooseInstructionsToInstrument should const uncaptured
              ClRBW ClDV (before ++ R :: after) All) ->
     Inst II <> R)
  /\ has_compound_write (Addr R)
       (chooseInstructionsToInstrument should const uncaptured
          ClRBW ClDV (before ++ R :: after) All).
Proof.
  intros Hrbw Hdv Hnb Hna Hold HRw HRs HW HWw HWa HWu.
  unfold chooseInstructionsToInstrument.
  rewrite rev_app_distr. simpl. rewrite <- app_assoc. simpl.
  rewrite foldl_app. simpl.
  set (s1 := foldl step ([], All) (rev after)).
  assert (targets_ok s1.1 s1.2) as Ht1.
  { apply fold_targets_ok. by intros p []. }
  assert (is_Some (find_target s1.1 (Addr R))) as [idx Hidx].
  { apply in_rev, in_split in HW as (l1 & l2 & Hsplit).
    unfold s1. rewrite Hsplit, foldl_app. simpl.
    apply fold_targets_mono. rewrite <- HWa.
    apply step_write_adds; [done| |done]. by rewrite HWa. }
  pose proof (fold_from_old should const uncaptured ClRBW ClDV
                (rev after) [] All) as Hfrom1. fold s1 in Hfrom1.
  destruct s1 as [WT1 All1] eqn:Hs1. simpl in *.
  rewrite (step_read_marks WT1 All1 R idx) by done.
  split.
  - intros II HII Heq.
    destruct (fold_from_old should const uncaptured ClRBW ClDV
                (rev before) WT1 (alter mark_compound idx All1) II HII)
      as [(II0 & H0 & Hi0)|[Hin _]].
    + apply In_alter_mark in H0 as (II1 & H1 & Hi1).
      destruct (Hfrom1 II1 H1) as [(II2 & H2 & Hi2)|[Hin _]].
      * apply (Hold II2 H2). congruence.
      * apply Hna. apply in_rev. congruence.
    + apply Hnb. apply in_rev. congruence.
  - apply (fold_keeps_compound_write (Addr R) (rev before)
             (WT1, alter mark_compound idx All1)). simpl.
    apply find_target_In in Hidx.
    destruct (Ht1 _ Hidx) as (Wi & HWi & HWiw & HWia). simpl in *.
    exists (mark_compound Wi). split; [|by rewrite is_compound_mark].
    apply list_elem_of_In, (list_elem_of_lookup_2 _ idx).
    by rewrite list_lookup_alter_eq, HWi.
Qed.

End ReadBeforeWrite.

(* ===================================================================== *)
(** * Part X: mutex annotations and the frame of the mapping hook         *)
(* ===================================================================== *)

Lemma ignore_regions_app (t1 t2 : list RtlCall) (open : list Region) :
  ignore_regions (t1 ++ t2) open
  = ignore_regions t1 open ≫= ignore_regions t2.
Proof.
  revert open. induction t1 as [|c t1 IH]; intros open; simpl; [done|].
  destruct c; try apply IH; destruct open as [|[] open]; simpl; try done;
    apply IH.
Qed.

(** X18.  The mutex annotations keep the ignore regions balanced and
    properly nested, whatever the flags: [pre_lock] followed by
    [post_lock], [pre_unlock] (when its check passes) followed by
    [post_unlock], and [pre_signal] followed by [post_signal] open the
    two regions and close them in reverse order, leaving the open
    regions as they found them, also with [pre_divert] and [post_divert]
    in between, which close the two regions and reopen them. *)
Theorem mutex_annotations_balance
    (P : Platform) (MF : MutexFlags) (m flagz flagz' rec : Z)
    (open : list Region) :
  ignore_regions (tsan_mutex_pre_lock P MF m flagz
                  ++ tsan_mutex_post_lock P MF m flagz' rec) open
  = Some open
  /\ ignore_regions (tsan_mutex_pre_signal P m flagz
                     ++ tsan_mutex_post_signal P m flagz') open
     = Some open
  /\ ignore_regions (tsan_mutex_pre_lock P MF m flagz
                     ++ tsan_mutex_pre_divert P m flagz
                     ++ tsan_mutex_post_divert P m flagz
                     ++ tsan_mutex_post_lock P MF m flagz' rec) open
     = Some open
  /\ (forall t,
        tsan_mutex_pre_unlock P MF m flagz = Some t ->
        ignore_regions (t ++ tsan_mutex_post_unlock P m flagz') open
        = Some open)
  /\ (tsan_mutex_pre_unlock P MF m flagz = None <->
      enable_annotations P = true
      /\ has_flag flagz (MutexFlagReadLock MF) = true
      /\ has_flag flagz (MutexFlagRecursiveUnlock MF) = true).
Proof.
  unfold tsan_mutex_pre_lock, tsan_mutex_post_lock, tsan_mutex_pre_signal,
    tsan_mutex_post_signal, tsan_mutex_pre_divert, tsan_mutex_post_divert,
    tsan_mutex_pre_unlock, tsan_mutex_post_unlock.
  destruct (enable_annotations P),
    (has_flag flagz (MutexFlagTryLock MF)),
    (has_flag flagz (MutexFlagReadLock MF)),
    (has_flag flagz (MutexFlagRecursiveUnlock MF)),
    (has_flag flagz' (MutexFlagTryLockFailed MF)),
    (has_flag flagz' (MutexFlagReadLock MF)); simpl;
    (split; [done|]); (split; [done|]); (split; [done|]);
    (split; [try done; by intros t [= <-]|]);
    (split; [done|]); by intros (? & ? & ?).
Qed.

(** X19.  What the mapping hook leaves alone, whether it returns or dies:
    without the [associate] flag the host-to-device side is untouched
    (in particular [disassociate] never removes the host-side record);
    without [associate] and [disassociate] the device-to-host side is
    untouched; without [associate], [to] and [from] the shadow is
    untouched; and with annotations disabled nothing changes at all. *)
Theorem mapping_hook_frame
    (P : Platform) (src_addr dest_addr bytes optype codeptr : Z)
    (var_name : option string) (st : State) :
  (has_flag optype ompt_device_mem_flag_associate = false ->
   h_to_t (state_of (AnnotateMapping P src_addr dest_addr bytes optype
                       codeptr var_name st)) = h_to_t st)
  /\ (has_flag optype ompt_device_mem_flag_associate = false ->
      has_flag optype ompt_device_mem_flag_disassociate = false ->
      t_to_h (state_of (AnnotateMapping P src_addr dest_addr bytes optype
                          codeptr var_name st)) = t_to_h st)
  /\ (has_flag optype ompt_device_mem_flag_associate = false ->
      has_flag optype ompt_device_mem_flag_to = false ->
      has_flag optype ompt_device_mem_flag_from = false ->
      shadow (state_of (AnnotateMapping P src_addr dest_addr bytes optype
                          codeptr var_name st)) = shadow st)
  /\ (enable_annotations P = false ->
      AnnotateMapping P src_addr dest_addr bytes optype codeptr var_name st
      = Ok st).
Proof.
  unfold AnnotateMapping, through_from, through_associate, check_app_mem,
    on_alloc, on_associate, on_to, on_from, on_transfer, on_disassociate,
    on_release, ASSERT, transfers.
  split; [|split; [|split]].
  - intros ->. repeat (case_match; simpl in *; try done).
  - intros -> ->. repeat (case_match; simpl in *; try done).
  - intros -> -> ->. repeat (case_match; simpl in *; try done).
  - by intros ->.
Qed.

(* ===================================================================== *)
(** * Part XI: the examples, run                                          *)
(* ===================================================================== *)

Lemma benign_race_is_found_witness :
  (IsExpectedReport
     (AnnotateBenignRaceSized linux_x86_64 [] "a.c" 10 0x1000 8 None)
     0x1004 2).1 = true
  /\ FindRace
       (race <$> AnnotateBenignRaceSized linux_x86_64 [] "a.c" 10 0x1000 8
                   None) 0x1004 2
     = Some (race (new_race "a.c" 10 0x1000 8 None)).
Proof.
  assert (enable_annotations linux_x86_64 = true) as He by reflexivity.
  assert (0 <= 0x1000) as H1 by lia.
  assert (0 <= 8) as H2 by lia.
  assert (0x1000 + 8 < 2 ^ 64) as H3 by lia.
  assert (0 <= 0x1004) as H4 by lia.
  assert (0 <= 2) as H5 by lia.
  assert (0x1004 + 2 < 2 ^ 64) as H6 by lia.
  assert (Z.max 0x1000 0x1004 < Z.min (0x1000 + 8) (0x1004 + 2)) as H7
    by lia.
  split.
  - exact (proj1 (benign_race_is_found linux_x86_64 [] "a.c" 10 0x1000 8
                    None 0x1004 2 He H1 H2 H3 H4 H5 H6 H7)).
  - exact (proj2 (benign_race_is_found linux_x86_64 [] "a.c" 10 0x1000 8
                    None 0x1004 2 He H1 H2 H3 H4 H5 H6 H7) eq_refl).
Defined.

Lemma addcounts_count_the_calls_witness :
  total_addcount (annotate_all linux_x86_64 benign_calls_example) = 3
  /\ length (annotate_all linux_x86_64 benign_calls_example) = 2%nat.
Proof.
  split; [|reflexivity].
  assert (Z.of_nat (length benign_calls_example) < 2 ^ 64) as H
    by (simpl; lia).
  exact (proj1 (addcounts_count_the_calls linux_x86_64 benign_calls_example
                  eq_refl H)).
Defined.

Lemma empty_query_never_hits_witness :
  IsExpectedReport (annotate_all linux_x86_64 benign_calls_example) 0x1000 0
  = (false, annotate_all linux_x86_64 benign_calls_example)
  /\ (IsExpectedReport (annotate_all linux_x86_64 benign_calls_example)
        0x1000 1).1 = true.
Proof.
  split; [|reflexivity].
  assert (0 <= 0x1000 < 2 ^ 64) as H by lia.
  exact (empty_query_never_hits
           (annotate_all linux_x86_64 benign_calls_example) 0x1000 H).
Defined.

Lemma degenerate_entries_never_hit_witness :
  IsExpectedReport
    (AnnotateBenignRaceSized linux_x86_64 [] "a.c" 1 0x1000 0 None) 0x0ff0 64
  = (false, AnnotateBenignRaceSized linux_x86_64 [] "a.c" 1 0x1000 0 None).
Proof.
  apply degenerate_entries_never_hit.
  intros b Hb. apply list_elem_of_singleton in Hb. subst b. simpl. lia.
Defined.

Lemma benign_race_covers_one_byte_witness :
  (IsExpectedReport
     (AnnotateBenignRace linux_x86_64 InitializeDynamicAnnotations "a.c" 3
        0x1000 None) 0x0ff8 16).1 = true
  /\ (IsExpectedReport
        (AnnotateBenignRace linux_x86_64 InitializeDynamicAnnotations "a.c" 3
           0x1000 None) 0x1001 16).1 = false.
Proof.
  split.
  - refine (benign_race_covers_one_byte linux_x86_64 "a.c" 3 0x1000 None
              0x0ff8 16 _ _ _ _ _); lia.
  - refine (benign_race_covers_one_byte linux_x86_64 "a.c" 3 0x1000 None
              0x1001 16 _ _ _ _ _); lia.
Defined.

Lemma arbalest_access_callee_witness :
  Arbalest_instrumentLoadOrStore load_example
  = (true, Some "__arbalest_read4")
  /\ Arbalest_instrumentLoadOrStore wide_load_example
     = (true, Some "__arbalest_read4").
Proof.
  assert (0 <= 2) as H by lia.
  split.
  - exact (arbalest_access_callee load_example 2 H eq_refl).
  - exact (arbalest_access_callee wide_load_example 2 H eq_refl).
Defined.

Lemma arbalest_init_arguments_witness :
  exists rest,
    insertModuleCtor true "x86_64-unknown-linux-gnu" globals_example
    = {| CtorName := kTsanModuleCtorName; InitName := kTsanInitName;
         InitCount := None; InitInfo := None |} :: rest
    /\ (rest <> [] <->
        "x86_64-unknown-linux-gnu" = "x86_64-unknown-linux-gnu"
        /\ true = true).
Proof.
  assert (Z.of_nat (length globals_example) < 2 ^ 32) as H by (simpl; lia).
  exact (proj1 (arbalest_init_arguments true "x86_64-unknown-linux-gnu"
                  globals_example H)).
Defined.



Lemma compound_entries_are_plain_stores_witness :
  compound_volatile_assertion false true
    {| Inst := store_example; Flags := kCompoundRW |} = true
  /\ (is_compound {| Inst := store_example; Flags := kCompoundRW |} = true ->
      IsWrite store_example = true).
Proof.
  apply (compound_entries_are_plain_stores (fun _ => true) (fun _ => false)
           (fun _ => false) false false true true sorted_example
           {| Inst := store_example; Flags := kCompoundRW |}).
  simpl. left. reflexivity.
Defined.

Lemma read_before_write_is_folded_witness :
  (forall II,
     In II (chooseInstructionsToInstrument (fun _ => true) (fun _ => false)
              (fun _ => false) false false
              ([] ++ load_example :: [store_example]) []) ->
     Inst II <> load_example)
  /\ has_compound_write (Addr load_example)
       (chooseInstructionsToInstrument (fun _ => true) (fun _ => false)
          (fun _ => false) false false
          ([] ++ load_example :: [store_example]) []).
Proof.
  apply (read_before_write_is_folded (fun _ => true) (fun _ => false)
           (fun _ => false) false false [] [store_example] load_example
           store_example []).
  - reflexivity.
  - reflexivity.
  - simpl. tauto.
  - simpl. intros [H|[]]. discriminate H.
  - simpl. tauto.
  - reflexivity.
  - reflexivity.
  - simpl. left. reflexivity.
  - reflexivity.
  - reflexivity.
  - reflexivity.
Defined.

Lemma mutex_annotations_balance_witness :
  ignore_regions
    (tsan_mutex_pre_lock linux_x86_64
       {| MutexFlagReadLock := 2; MutexFlagTryLock := 4;
          MutexFlagTryLockFailed := 8; MutexFlagRecursiveUnlock := 32 |} 7 2
     ++ tsan_mutex_post_lock linux_x86_64
          {| MutexFlagReadLock := 2; MutexFlagTryLock := 4;
             MutexFlagTryLockFailed := 8; MutexFlagRecursiveUnlock := 32 |}
          7 2 0) [] = Some []
  /\ ignore_regions
       ([MutexReadUnlock 7; ThreadIgnoreBegin 0; ThreadIgnoreSyncBegin 0]
        ++ tsan_mutex_post_unlock linux_x86_64 7 2) [] = Some [].
Proof.
  pose proof (mutex_annotations_balance linux_x86_64
                {| MutexFlagReadLock := 2; MutexFlagTryLock := 4;
                   MutexFlagTryLockFailed := 8;
                   MutexFlagRecursiveUnlock := 32 |} 7 2 2 0 [])
    as (H1 & _ & _ & H4 & _).
  split; [exact H1|]. apply H4. reflexivity.
Defined.

Lemma mapping_hook_frame_witness :
  h_to_t (state_of (call linux_x86_64 exit_data
                      (state_of (call linux_x86_64 enter_data
                                   initial_state))))
  = h_to_t (state_of (call linux_x86_64 enter_data initial_state))
  /\ shadow (state_of (call linux_x86_64 exit_data
                         (state_of (call linux_x86_64 enter_data
                                      initial_state))))
     = shadow (state_of (call linux_x86_64 enter_data initial_state)).
Proof.
  pose proof (mapping_hook_frame linux_x86_64 (c_src exit_data)
                (c_dest exit_data) (c_bytes exit_data) (c_optype exit_data)
                (c_codeptr exit_data) (c_name exit_data)
                (state_of (call linux_x86_64 enter_data initial_state)))
    as (H1 & _ & H3 & _).
  split; [apply H1|apply H3]; reflexivity.
Defined.
